(** * Thumbnail cache and thumbnail generation: a shallow embedding

    The development follows these source files of the repository:
    - [utils/thumbnailCache.ts] (class [ThumbnailCache], over [localStorage]),
    - [components/ThumbnailGenerator.tsx] (the 2D canvas composition),
    - [components/ToolGrid.tsx] (the grid that requests thumbnails),
    - [components/ModelViewer2D.tsx] (zoom and pan of the 2D viewer).

    Conventions of the embedding.
    - A JavaScript number that holds an integer (a length, a count, a
      [Date.now()] reading in milliseconds) is a [Z]; the numbers of the canvas
      composition are doubles, given as the rationals they are: every
      operation yields the exact result rounded to the nearest double.
    - [localStorage] is an ordered list of key/value pairs: [key(i)] is the
      i-th pair, a new key is appended, [removeItem] shifts the later keys down.
    - A stored text is represented by what the cache code can observe of it:
      whether it is empty, whether [JSON.parse] throws on it, and otherwise the
      parsed value: [null], a [CacheEntry] as [JSON.stringify] wrote it, or
      any other value, given by what the reads [entry.dataUrl],
      [entry.timestamp] and [entry.size] make of it.
    - Code that can throw lives in the monad [JS]: a state transformer over the
      storage that ends in a normal completion or in a thrown exception; the
      storage changes made before a throw are kept, as in JavaScript. *)

From Stdlib Require Import ZArith QArith Qround Qminmax Qpower Qabs Lia Lqa String Floats.
From stdpp Require Import base list strings gmap sorting pretty.

Open Scope Z_scope.

(** ** Completions and the [JS] monad *)

Inductive Exn : Type :=
  | QuotaExceededError
  | SyntaxError
  | TypeError.

Inductive Completion (A : Type) : Type :=
  | Normal (a : A)
  | Throw (e : Exn).
Arguments Normal {A} a.
Arguments Throw {A} e.

(** ** Stored texts *)

(** [interface CacheEntry { dataUrl: string; timestamp: number; size: number }] *)
Record CacheEntry : Type := mkEntry {
  dataUrl : string;
  timestamp : Z;
  size : Z
}.

(** A number of the cache code: an integer, or [NaN], which is what
    [undefined] and the other values without a numeric reading become in
    [Date.now() - entry.timestamp], in [a.entry.timestamp - b.entry.timestamp]
    and in [total + entry.size]. *)
Inductive JsNumber : Type :=
  | Num (n : Z)
  | NaN.

Definition number_add (a b : JsNumber) : JsNumber :=
  match a, b with
  | Num x, Num y => Num (x + y)
  | _, _ => NaN
  end.

Definition number_sub (a b : JsNumber) : JsNumber :=
  match a, b with
  | Num x, Num y => Num (x - y)
  | _, _ => NaN
  end.

(** [a > b]: a comparison with [NaN] is false. *)
Definition number_gt (a : JsNumber) (b : Z) : bool :=
  match a with
  | Num x => x >? b
  | NaN => false
  end.

(** What the read [entry.dataUrl] gives, and so what [ThumbnailCache.get]
    returns: a string, [null], or [undefined] when the value has no such
    property. *)
Inductive JsValue : Type :=
  | JsUndefined
  | JsNull
  | JsString (s : string).

#[global] Instance JsValue_eq_dec : EqDecision JsValue.
Proof. solve_decision. Defined.

(** What [JSON.parse] returns. [JNull] is [null]. [JEntry e] is an object with
    the three fields of a [CacheEntry], a string and two numbers, as [set]
    writes it. [JOther d t s] is any other value: an object that lacks a field
    or holds [null] in it, an array, a number, a string, a boolean. It is given
    by the three reads the cache code makes on a parsed value: [d] is
    [entry.dataUrl], [t] the number that [entry.timestamp] is in a subtraction
    and [s] the number that [entry.size] is in a sum ([NaN] for [undefined]);
    for [{}], [5] and [[]] these are [undefined], [NaN] and [NaN]. A [dataUrl]
    of another type than string, and a [size] that is a string or an object,
    so that [+] concatenates, have no representation. *)
Inductive JsonValue : Type :=
  | JNull
  | JEntry (e : CacheEntry)
  | JOther (d : JsValue) (t : JsNumber) (s : JsNumber).

(** A value held by [localStorage]. [TEmpty] is the empty string (falsy),
    [TGarbage] a non-empty text that is not JSON, [TJson v] the JSON text of
    [v]. *)
Inductive Stored : Type :=
  | TEmpty
  | TGarbage
  | TJson (v : JsonValue).

(** ** The storage *)

(** [accepts its k v] tells whether the storage, holding [its], takes the write
    of [v] under [k]; when it does not, [setItem] throws. The quota policy
    belongs to the browser, so it is a component of the state.
    [setItem_log] records every call of [setItem] with its outcome. *)
Record World : Type := mkWorld {
  items : list (string * Stored);
  accepts : list (string * Stored) -> string -> Stored -> bool;
  setItem_log : list (string * Stored * bool)
}.

Definition with_items (w : World) (its : list (string * Stored)) : World :=
  {| items := its; accepts := accepts w; setItem_log := setItem_log w |}.

Definition JS (A : Type) : Type := World -> World * Completion A.

Definition ret {A} (a : A) : JS A := fun w => (w, Normal a).

Definition throw {A} (e : Exn) : JS A := fun w => (w, Throw e).

Definition bind {A B} (m : JS A) (k : A -> JS B) : JS B :=
  fun w =>
    match m w with
    | (w', Normal a) => k a w'
    | (w', Throw e) => (w', Throw e)
    end.

(** [try { m } catch (error) { h error }] *)
Definition try_catch {A} (m : JS A) (h : Exn -> JS A) : JS A :=
  fun w =>
    match m w with
    | (w', Normal a) => (w', Normal a)
    | (w', Throw e) => h e w'
    end.

Declare Scope js_scope.
Delimit Scope js_scope with js.
Notation "x <- m ;; k" := (bind m (fun x => k))
  (at level 100, m at next level, right associativity) : js_scope.
Notation "m ;; k" := (bind m (fun _ => k))
  (at level 100, right associativity) : js_scope.
Open Scope js_scope.

(** Association-list operations behind the storage calls. *)
Fixpoint assoc_lookup (k : string) (its : list (string * Stored)) : option Stored :=
  match its with
  | [] => None
  | (k', v) :: rest => if String.eqb k k' then Some v else assoc_lookup k rest
  end.

Fixpoint assoc_remove (k : string) (its : list (string * Stored)) : list (string * Stored) :=
  match its with
  | [] => []
  | (k', v) :: rest =>
      if String.eqb k k' then assoc_remove k rest else (k', v) :: assoc_remove k rest
  end.

(** An existing key keeps its position, a new key goes to the end. *)
Fixpoint assoc_upsert (k : string) (v : Stored) (its : list (string * Stored))
  : list (string * Stored) :=
  match its with
  | [] => [(k, v)]
  | (k', v') :: rest =>
      if String.eqb k k' then (k', v) :: rest else (k', v') :: assoc_upsert k v rest
  end.

Module localStorage.

Definition length : JS nat :=
  fun w => (w, Normal (List.length (items w))).

Definition key (i : nat) : JS (option string) :=
  fun w => (w, Normal (fst <$> items w !! i)).

Definition getItem (k : string) : JS (option Stored) :=
  fun w => (w, Normal (assoc_lookup k (items w))).

Definition removeItem (k : string) : JS unit :=
  fun w => (with_items w (assoc_remove k (items w)), Normal tt).

Definition setItem (k : string) (v : Stored) : JS unit :=
  fun w =>
    if accepts w (items w) k v then
      ({| items := assoc_upsert k v (items w);
          accepts := accepts w;
          setItem_log := setItem_log w ++ [(k, v, true)] |}, Normal tt)
    else
      ({| items := items w;
          accepts := accepts w;
          setItem_log := setItem_log w ++ [(k, v, false)] |},
       Throw QuotaExceededError).

End localStorage.

Module JSON.

Definition parse (item : Stored) : JS JsonValue :=
  match item with
  | TJson v => ret v
  | TEmpty | TGarbage => throw SyntaxError
  end.

Definition stringify (entry : CacheEntry) : Stored := TJson (JEntry entry).

End JSON.

(** Property reads [entry.dataUrl], [entry.timestamp], [entry.size]: a read on
    [null] throws a [TypeError]. *)
Definition field_dataUrl (entry : JsonValue) : JS JsValue :=
  match entry with
  | JNull => throw TypeError
  | JEntry e => ret (JsString (dataUrl e))
  | JOther d _ _ => ret d
  end.

Definition field_timestamp (entry : JsonValue) : JS JsNumber :=
  match entry with
  | JNull => throw TypeError
  | JEntry e => ret (Num (timestamp e))
  | JOther _ t _ => ret t
  end.

Definition field_size (entry : JsonValue) : JS JsNumber :=
  match entry with
  | JNull => throw TypeError
  | JEntry e => ret (Num (size e))
  | JOther _ _ s => ret s
  end.

(** ** Arrays *)

(** [Array.prototype.sort] with a comparator that may throw. The engine's sort
    is stable; insertion from the right is a stable sort, and it calls the
    comparator on every element as soon as the array has two elements, as any
    comparison sort must. A comparator result [NaN] counts as 0. With such
    results the comparator is not consistent and the language leaves the
    order to the engine; the order below is then one of the permitted ones. *)
Definition not_after (c : JsNumber) : bool :=
  match c with
  | Num z => z <=? 0
  | NaN => true
  end.

Fixpoint sort_insert {A} (cmp : A -> A -> JS JsNumber) (x : A) (l : list A) : JS (list A) :=
  match l with
  | [] => ret [x]
  | y :: ys =>
      c <- cmp x y ;;
      if not_after c then ret (x :: y :: ys)
      else (r <- sort_insert cmp x ys ;; ret (y :: r))
  end.

Fixpoint Array_sort {A} (cmp : A -> A -> JS JsNumber) (l : list A) : JS (list A) :=
  match l with
  | [] => ret []
  | x :: xs => s <- Array_sort cmp xs ;; sort_insert cmp x s
  end.

(** [arr.slice(0, e)]: a negative [e] counts from the end. *)
Definition Array_slice0 {A} (e : Z) (l : list A) : list A :=
  if e <? 0 then take (Z.to_nat (Z.max (Z.of_nat (List.length l) + e) 0)) l
  else take (Z.to_nat e) l.

Fixpoint Array_forEach {A} (f : A -> JS unit) (l : list A) : JS unit :=
  match l with
  | [] => ret tt
  | x :: xs => f x ;; Array_forEach f xs
  end.

(** [arr.reduce((acc, x) => f acc x, init)] *)
Fixpoint Array_reduce {A B} (f : B -> A -> JS B) (l : list A) (acc : B) : JS B :=
  match l with
  | [] => ret acc
  | x :: xs => acc' <- f acc x ;; Array_reduce f xs acc'
  end.

(** [Math.ceil(n * 0.2)] for an array length [n]: the double nearest to a
    multiple of 5 times 0.2 is the exact quotient, and every other product is
    far from an integer, so the result is the ceiling of the rational n/5. *)
Definition ceil_times_0_2 (n : Z) : Z := Qceiling (inject_Z n * (2 # 10)).

(** ** [ThumbnailCache] *)

Module ThumbnailCache.

Definition CACHE_PREFIX : string := "thumbnail_".
Definition MAX_CACHE_SIZE : Z := 50 * 1024 * 1024.
Definition MAX_CACHE_ITEMS : Z := 100.

Definition str_length (s : string) : Z := Z.of_nat (String.length s).

(** [private static getAllEntries()]: the loop over [localStorage.key(i)].
    Each round increments [i] and the storage never grows, so the number of
    keys at entry bounds the number of rounds. *)
Fixpoint getAllEntries_loop (fuel : nat) (i : nat) (entries : list (string * JsonValue))
  : JS (list (string * JsonValue)) :=
  match fuel with
  | O => ret entries
  | S fuel' =>
      n <- localStorage.length ;;
      if (i <? n)%nat then
        key <- localStorage.key i ;;
        entries' <-
          match key with
          | Some key =>
              if String.prefix CACHE_PREFIX key then
                try_catch
                  (item <- localStorage.getItem key ;;
                   match item with
                   | None | Some TEmpty => ret entries
                   | Some item =>
                       entry <- JSON.parse item ;;
                       ret (entries ++ [(key, entry)])
                   end)
                  (fun _ => localStorage.removeItem key ;; ret entries)
              else ret entries
          | None => ret entries
          end ;;
        getAllEntries_loop fuel' (S i) entries'
      else ret entries
  end.

Definition getAllEntries : JS (list (string * JsonValue)) :=
  n <- localStorage.length ;;
  getAllEntries_loop n 0 [].

Definition total_size (entries : list (string * JsonValue)) : JS JsNumber :=
  Array_reduce (fun total x => s <- field_size (snd x) ;; ret (number_add total s))
    entries (Num 0).

(** The comparator [(a, b) => a.entry.timestamp - b.entry.timestamp]. *)
Definition by_timestamp (a b : string * JsonValue) : JS JsNumber :=
  ta <- field_timestamp (snd a) ;;
  tb <- field_timestamp (snd b) ;;
  ret (number_sub ta tb).

(** [static cleanup(count: number = 10)] *)
Definition cleanup (count : Z) : JS unit :=
  try_catch
    (entries <- getAllEntries ;;
     sorted <- Array_sort by_timestamp entries ;;
     let toRemove :=
       Array_slice0 (Z.min count (Z.of_nat (List.length sorted))) sorted in
     Array_forEach (fun x => localStorage.removeItem (fst x)) toRemove)
    (fun _ => ret tt).

Definition removeCount (n : Z) : Z :=
  Z.max (n - MAX_CACHE_ITEMS + 10) (ceil_times_0_2 n).

(** [private static cleanupIfNeeded()] *)
Definition cleanupIfNeeded : JS unit :=
  entries <- getAllEntries ;;
  totalSize <- total_size entries ;;
  if number_gt totalSize MAX_CACHE_SIZE
     || (Z.of_nat (List.length entries) >? MAX_CACHE_ITEMS)
  then cleanup (removeCount (Z.of_nat (List.length entries)))
  else ret tt.

(** [static set(modelId, dataUrl)]. [now] is the reading of [Date.now()] in
    the [try] block, [retryNow] the reading in the [catch] block. *)
Definition set (modelId dataUrl : string) (now retryNow : Z) : JS unit :=
  try_catch
    (let entry :=
       {| dataUrl := dataUrl; timestamp := now; size := str_length dataUrl |} in
     cleanupIfNeeded ;;
     let key := CACHE_PREFIX +:+ modelId in
     localStorage.setItem key (JSON.stringify entry))
    (fun _ =>
       cleanup 10 ;;
       try_catch
         (let key := CACHE_PREFIX +:+ modelId in
          let entry :=
            {| dataUrl := dataUrl; timestamp := retryNow; size := str_length dataUrl |} in
          localStorage.setItem key (JSON.stringify entry))
         (fun _ => ret tt)).

Definition maxAge : Z := 7 * 24 * 60 * 60 * 1000.

(** [static get(modelId): string | null]. The value returned is
    [entry.dataUrl] as it is read, so it is [undefined] when the stored value
    has no such property. *)
Definition get (modelId : string) (now : Z) : JS JsValue :=
  try_catch
    (let key := CACHE_PREFIX +:+ modelId in
     item <- localStorage.getItem key ;;
     match item with
     | None | Some TEmpty => ret JsNull
     | Some item =>
         entry <- JSON.parse item ;;
         ts <- field_timestamp entry ;;
         if number_gt (number_sub (Num now) ts) maxAge then
           localStorage.removeItem key ;; ret JsNull
         else
           field_dataUrl entry
     end)
    (fun _ => ret JsNull).

(** [static remove(modelId)] *)
Definition remove (modelId : string) : JS unit :=
  try_catch
    (let key := CACHE_PREFIX +:+ modelId in
     localStorage.removeItem key)
    (fun _ => ret tt).

(** [static getCacheSize()] *)
Definition getCacheSize : JS JsNumber :=
  entries <- getAllEntries ;;
  total_size entries.

(** [static getStats()], without the formatted text [sizeFormatted], which is
    computed from [size] alone. *)
Definition getStats : JS (Z * JsNumber) :=
  entries <- getAllEntries ;;
  size <- total_size entries ;;
  ret (Z.of_nat (List.length entries), size).

(** [static clear()] *)
Definition clear : JS unit :=
  try_catch
    (entries <- getAllEntries ;;
     Array_forEach (fun x => localStorage.removeItem (fst x)) entries)
    (fun _ => ret tt).

(** [static has(modelId)]: [this.get(modelId) !== null] *)
Definition has (modelId : string) (now : Z) : JS bool :=
  r <- get modelId now ;;
  ret (match r with JsNull => false | _ => true end).

End ThumbnailCache.

(** ** Numbers in binary64

    A finite double is a rational, and an arithmetic operation of JavaScript
    yields the exact result rounded to the nearest double, ties to the even
    significand (53 bits). [binary64] is this rounding for results in the
    normal range, where the exponent is not limited; the quantities of the
    2D composition are in this range. *)

(** The exponent of [x > 0]: the [e] with [2 ^ e <= x < 2 ^ (e + 1)]. *)
Definition ilog2 (x : Q) : Z :=
  let e0 := Z.log2 (Qnum x) - Z.log2 (Z.pos (Qden x)) in
  if Qle_bool (2 ^ e0) x then e0 else e0 - 1.

(** The nearest integer, the even one of two. *)
Definition round_half_even (x : Q) : Z :=
  let f := Qfloor x in
  match (x - inject_Z f ?= 1 # 2)%Q with
  | Lt => f
  | Gt => f + 1
  | Eq => if Z.even f then f else f + 1
  end.

Definition binary64 (x : Q) : Q :=
  match (x ?= 0)%Q with
  | Eq => 0
  | Gt =>
      let ulp := (2 ^ (ilog2 x - 52))%Q in
      (inject_Z (round_half_even (x / ulp)) * ulp)%Q
  | Lt =>
      let ulp := (2 ^ (ilog2 (- x) - 52))%Q in
      (- (inject_Z (round_half_even (- x / ulp)) * ulp))%Q
  end.

(** The unit of rounding, 2^-53: the largest relative error of one rounding. *)
Definition unit_roundoff : Q := 1 # 9007199254740992.

(** ** [ThumbnailGenerator]: the 2D composition *)

Module ThumbnailGenerator.

(** The calls that the [img.onload] handler makes on the canvas it creates.
    [drawImage] holds the arguments [x], [y], [scaledWidth], [scaledHeight] of
    [ctx.drawImage(img, x, y, scaledWidth, scaledHeight)], and [fillRect] those
    of [ctx.fillRect(0, 0, size, size)]. *)
Record Canvas : Type := mkCanvas {
  width : Q;
  height : Q;
  fillStyle : string;
  fillRect : Q * Q * Q * Q;
  drawImage : Q * Q * Q * Q
}.

Definition size : Q := 400.

(** [Math.min(size / img.width, size / img.height)]; [img.width] and
    [img.height] are positive integers below 2^53, which are doubles. *)
Definition scale (img_width img_height : Z) : Q :=
  Qmin (binary64 (size / inject_Z img_width)) (binary64 (size / inject_Z img_height)).

(** The body of [img.onload] for an image of natural size
    [img_width] x [img_height]. *)
Definition onload (img_width img_height : Z) : Canvas :=
  let scale :=
    Qmin (binary64 (size / inject_Z img_width)) (binary64 (size / inject_Z img_height)) in
  let scaledWidth := binary64 (inject_Z img_width * scale) in
  let scaledHeight := binary64 (inject_Z img_height * scale) in
  let x := binary64 (binary64 (size - scaledWidth) / 2) in
  let y := binary64 (binary64 (size - scaledHeight) / 2) in
  {| width := size;
     height := size;
     fillStyle := "#f9fafb";
     fillRect := (0, 0, size, size)%Q;
     drawImage := (x, y, scaledWidth, scaledHeight) |}.

End ThumbnailGenerator.

(** The bound 2^-43 on how far the drawn rectangle can leave the canvas. *)
Definition fit_slack : Q := 1 # 8796093022208.

(** *** The same handler on the primitive floats

    The arithmetic of [onload] on the machine doubles of the kernel, to
    compare [binary64] with. *)

Definition float_of_Z (n : Z) : float := PrimFloat.of_uint63 (Uint63.of_Z n).

(** The rational that a finite double is. *)
Definition float_to_Q (f : float) : option Q :=
  match Prim2SF f with
  | S754_zero _ => Some 0%Q
  | S754_finite s m e =>
      Some ((if s then -1 else 1) * inject_Z (Z.pos m) * 2 ^ e)%Q
  | _ => None
  end.

(** [Math.min] on two doubles that are not [NaN]. *)
Definition float_min (a b : float) : float :=
  if PrimFloat.ltb b a then b else a.

(** The arguments [x], [y], [scaledWidth], [scaledHeight] of [drawImage]. *)
Definition drawImage_float (img_width img_height : Z) : float * float * float * float :=
  let size := float_of_Z 400 in
  let scale :=
    float_min (PrimFloat.div size (float_of_Z img_width))
      (PrimFloat.div size (float_of_Z img_height)) in
  let scaledWidth := PrimFloat.mul (float_of_Z img_width) scale in
  let scaledHeight := PrimFloat.mul (float_of_Z img_height) scale in
  let x := PrimFloat.div (PrimFloat.sub size scaledWidth) (float_of_Z 2) in
  let y := PrimFloat.div (PrimFloat.sub size scaledHeight) (float_of_Z 2) in
  (x, y, scaledWidth, scaledHeight).

Definition same_number (f : float) (q : Q) : bool :=
  match float_to_Q f with
  | Some r => Qeq_bool r q
  | None => false
  end.

Definition agrees_with_floats (img_width img_height : Z) : bool :=
  let '(x, y, dw, dh) := drawImage_float img_width img_height in
  let '(x', y', dw', dh') :=
    ThumbnailGenerator.drawImage (ThumbnailGenerator.onload img_width img_height) in
  same_number x x' && same_number y y' && same_number dw dw' && same_number dh dh'.

(** Image sides to compare on: every size up to 12 and sizes of pictures,
    screens and limits of the decoders. *)
Definition sample_sides : list Z :=
  (Z.of_nat <$> seq 1 12)
  ++ [64; 100; 199; 255; 333; 399; 400; 401; 640; 800; 1000; 1024; 1060; 1080; 1920;
      3000; 4096; 65535; 1000003; 4294967295]%Z.

(** ** [ToolGrid]: requesting and storing thumbnails

    The component is a state machine over the events of the browser. The
    embedding keeps what decides how often a thumbnail is generated and stored:
    the two state maps, the mounted [ThumbnailGenerator] children with their
    [captured] flag, the requests and image loads that are under way, and the
    cache. It relies on three rules of React:
    - a state update that changes the state renders [ToolGrid] and its
      children again; an updater that returns the previous state does not;
    - after a render an effect runs again when one of its dependencies is a
      new value; [onThumbnailGenerated] is an arrow function made by each
      render of [ToolGrid], so the 2D effect of a mounted generator runs after
      every render of [ToolGrid];
    - the 2D effect has no cleanup: an [Image] that was started keeps loading,
      and its [onload] handler runs with the callback it was created with,
      whether or not the generator is still mounted.
    The 3D branch (the off-screen [Canvas]) is not modelled: a generator of a
    3d model starts nothing here. *)

Module ToolGrid.

Inductive ModelType : Type := T3d | T2d.

(** The fields of [Model] that the thumbnail code reads. *)
Record Model : Type := mkModel {
  id : string;
  type : ModelType
}.

Record State : Type := mkState {
  models : list Model;
  thumbnails : gmap string string;
  loadingUrls : gmap string string;
  (** mounted [ThumbnailGenerator]s, by model id, with their [captured] state *)
  generators : gmap string bool;
  (** [fetchModelUrl] calls that await their response *)
  pending_fetches : list string;
  (** [Image] objects that are loading: model id and [img.src] *)
  pending_images : list (string * string);
  storage : World
}.

(** Truthiness of [record[key]]: [undefined] and the empty string are falsy. *)
Definition truthy (o : option string) : bool :=
  match o with
  | Some s => negb (String.eqb s EmptyString)
  | None => false
  end.

(** [{loadingUrls[model.id] && !thumbnails[model.id] && (<ThumbnailGenerator ... />)}] *)
Definition shows_generator (s : State) (m : Model) : bool :=
  truthy (loadingUrls s !! id m) && negb (truthy (thumbnails s !! id m)).

(** The generators after a render: a generator that stays keeps its state, a
    new one starts with [captured = false]. *)
Definition render_generators (s : State) : gmap string bool :=
  foldr
    (fun m gens =>
       if shows_generator s m
       then <[id m := default false (generators s !! id m)]> gens
       else gens)
    ∅ (models s).

(** The 2D effect of [ThumbnailGenerator]:
    [if (type === '2d' && url && !captured) { const img = new Image() ... }] *)
Definition generator_effect (s : State) (m : Model) (captured : bool)
  : list (string * string) :=
  match type m, loadingUrls s !! id m with
  | T2d, Some url =>
      if truthy (Some url) && negb captured then [(id m, url)] else []
  | _, _ => []
  end.

(** The effect "Fetch URLs for models that need thumbnails". *)
Definition fetch_effect (s : State) : list string :=
  omap
    (fun m =>
       if negb (truthy (thumbnails s !! id m)) && negb (truthy (loadingUrls s !! id m))
       then Some (id m)
       else None)
    (models s).

(** A render of [ToolGrid] followed by the effects it schedules. *)
Definition render (s : State) : State :=
  let gens := render_generators s in
  {| models := models s;
     thumbnails := thumbnails s;
     loadingUrls := loadingUrls s;
     generators := gens;
     pending_fetches := pending_fetches s ++ fetch_effect s;
     pending_images :=
       pending_images s
       ++ flat_map
            (fun m =>
               match gens !! id m with
               | Some captured => generator_effect s m captured
               | None => []
               end)
            (models s);
     storage := storage s |}.

(** The effect "Load cached thumbnails on mount": the reads of the cache and
    the object [cachedThumbnails]; [null], [undefined] and the empty string
    are falsy. *)
Definition load_cached (ms : list Model) (now : Z) (w : World)
  : gmap string string * World :=
  foldl
    (fun acc m =>
       match ThumbnailCache.get (id m) now acc.2 with
       | (w', Normal (JsString cached)) =>
           if truthy (Some cached) then (<[id m := cached]> acc.1, w') else (acc.1, w')
       | (w', _) => (acc.1, w')
       end)
    (∅, w) ms.

(** The first render with its effects, and the render that follows when the
    cache held thumbnails. *)
Definition mount (ms : list Model) (w : World) (now : Z) : State :=
  let loaded := load_cached ms now w in
  let s1 :=
    render {| models := ms; thumbnails := ∅; loadingUrls := ∅; generators := ∅;
              pending_fetches := []; pending_images := []; storage := loaded.2 |} in
  match map_to_list loaded.1 with
  | [] => s1
  | _ =>
      render {| models := models s1;
                thumbnails := loaded.1 ∪ thumbnails s1;
                loadingUrls := loadingUrls s1;
                generators := generators s1;
                pending_fetches := pending_fetches s1;
                pending_images := pending_images s1;
                storage := storage s1 |}
  end.

Inductive Event : Type :=
  (** a [fetchModelUrl] response with [response.ok && data.success] *)
  | FetchResolved (modelId url : string)
  (** a [fetchModelUrl] response that is not ok, or a network error *)
  | FetchFailed (modelId : string)
  (** [img.onload] of a loading image, with the data URL of the canvas and the
      clock reading of the call *)
  | ImageLoaded (modelId url dataUrl : string) (now : Z).

(** Takes one occurrence of [x] out of [l]; [None] when there is none. *)
Fixpoint take_one {A} `{EqDecision A} (x : A) (l : list A) : option (list A) :=
  match l with
  | [] => None
  | y :: ys => if decide (x = y) then Some ys else (y ::.) <$> take_one x ys
  end.

(** One event of the browser; [None] when the event cannot happen because no
    such request or image is under way. *)
Definition step (ev : Event) (s : State) : option State :=
  match ev with
  | FetchResolved modelId url =>
      rest ← take_one modelId (pending_fetches s);
      (* setLoadingUrls(prev => prev[model.id] ? prev : { ...prev, [model.id]: data.url }) *)
      if truthy (loadingUrls s !! modelId) then
        Some {| models := models s; thumbnails := thumbnails s;
                loadingUrls := loadingUrls s; generators := generators s;
                pending_fetches := rest; pending_images := pending_images s;
                storage := storage s |}
      else
        Some (render {| models := models s; thumbnails := thumbnails s;
                        loadingUrls := <[modelId := url]> (loadingUrls s);
                        generators := generators s;
                        pending_fetches := rest; pending_images := pending_images s;
                        storage := storage s |})
  | FetchFailed modelId =>
      rest ← take_one modelId (pending_fetches s);
      Some {| models := models s; thumbnails := thumbnails s;
              loadingUrls := loadingUrls s; generators := generators s;
              pending_fetches := rest; pending_images := pending_images s;
              storage := storage s |}
  | ImageLoaded modelId url dataUrl now =>
      rest ← take_one (modelId, url) (pending_images s);
      (* onThumbnailGenerated(dataUrl), that is handleThumbnailGenerated(model.id, dataUrl):
         setThumbnails, ThumbnailCache.set, setLoadingUrls; then setCaptured(true) *)
      Some (render {| models := models s;
                      thumbnails := <[modelId := dataUrl]> (thumbnails s);
                      loadingUrls := delete modelId (loadingUrls s);
                      generators := alter (fun _ => true) modelId (generators s);
                      pending_fetches := pending_fetches s;
                      pending_images := rest;
                      storage := (ThumbnailCache.set modelId dataUrl now now (storage s)).1 |})
  end.

Fixpoint run (evs : list Event) (s : State) : option State :=
  match evs with
  | [] => Some s
  | ev :: evs' => s' ← step ev s; run evs' s'
  end.

(** The image loads under way for a model id: its generation attempts in
    flight. *)
Definition in_flight (modelId : string) (s : State) : list (string * string) :=
  filter (fun p => p.1 = modelId) (pending_images s).

(** The [setItem] calls made for a model id: its cache writes. *)
Definition cache_writes (modelId : string) (s : State) : list (string * Stored * bool) :=
  filter (fun c => c.1.1 = ThumbnailCache.CACHE_PREFIX +:+ modelId)
    (setItem_log (storage s)).

End ToolGrid.

(** ** Pure views of the storage, used to state the properties *)

Import ThumbnailCache.

(** The entry a pair of the storage stands for, when its key is in the cache's
    namespace and its text is the JSON of an entry. *)
Definition entry_of (kv : string * Stored) : option (string * CacheEntry) :=
  if String.prefix CACHE_PREFIX kv.1 then
    match kv.2 with
    | TJson (JEntry e) => Some (kv.1, e)
    | _ => None
    end
  else None.

(** The live entries, in the order of [localStorage.key]. *)
Definition cache_entries (its : list (string * Stored)) : list (string * CacheEntry) :=
  omap entry_of its.

Definition entry_ok (kv : string * Stored) : bool :=
  if String.prefix CACHE_PREFIX kv.1 then
    match kv.2 with
    | TJson (JEntry _) => true
    | _ => false
    end
  else true.

(** A storage with one value per key in which every value under the cache's
    namespace is an entry, as [set] writes them. Keys outside the namespace
    hold anything. *)
Definition well_formed (its : list (string * Stored)) : Prop :=
  NoDup its.*1 ∧ forallb entry_ok its = true.

Definition sum_sizes (es : list (string * CacheEntry)) : Z :=
  foldr (fun x acc => size x.2 + acc) 0 es.

Definition as_json (x : string * CacheEntry) : string * JsonValue := (x.1, JEntry x.2).

(** The stable sort by timestamp as a pure function on entries. *)
Fixpoint insert_ts (x : string * CacheEntry) (l : list (string * CacheEntry))
  : list (string * CacheEntry) :=
  match l with
  | [] => [x]
  | y :: ys =>
      if timestamp x.2 - timestamp y.2 <=? 0 then x :: y :: ys
      else y :: insert_ts x ys
  end.

Definition sort_ts (l : list (string * CacheEntry)) : list (string * CacheEntry) :=
  foldr insert_ts [] l.

Definition older_eq (x y : string * CacheEntry) : Prop :=
  timestamp x.2 <= timestamp y.2.

(** The storage without the keys of [ks]. *)
Definition without_keys (ks : list string) (its : list (string * Stored))
  : list (string * Stored) :=
  filter (fun kv => kv.1 ∉ ks) its.

(** ** Concrete storages and call sequences *)

(** A storage without quota: every write is taken. *)
Definition accept_all (its : list (string * Stored)) (k : string) (v : Stored) : bool :=
  true.

(** A storage that takes a write only while it holds fewer than [limit]
    pairs, whatever their length. *)
Definition limit_pairs (limit : nat) (its : list (string * Stored)) (k : string)
  (v : Stored) : bool :=
  (List.length its <? limit)%nat.

Definition empty_world : World :=
  {| items := []; accepts := accept_all; setItem_log := [] |}.

(** One call [ThumbnailCache.set(modelId, dataUrl)] made when the clock reads
    [at_time]. *)
Record SetCall : Type := mkSetCall {
  call_modelId : string;
  call_dataUrl : string;
  at_time : Z
}.

Definition run_set (w : World) (c : SetCall) : World :=
  (set (call_modelId c) (call_dataUrl c) (at_time c) (at_time c) w).1.

Definition run_sets (cs : list SetCall) (w : World) : World :=
  foldl run_set w cs.

(** [n] calls with the distinct ids "m0", "m1", ..., one millisecond apart,
    each with the payload [payload]. *)
Definition distinct_calls (n : nat) (payload : string) : list SetCall :=
  (fun i => mkSetCall ("m" +:+ pretty i) payload (Z.of_nat i)) <$> seq 0 n.

(** The storage after 101 calls of [set] with distinct ids. *)
Definition world_101 : World := run_sets (distinct_calls 101 "data:,") empty_world.

(** A storage limited to three pairs that already holds three entries. *)
Definition world_full : World :=
  {| items :=
       [("thumbnail_a"%string, JSON.stringify (mkEntry "data:,a" 30 7));
        ("thumbnail_b"%string, JSON.stringify (mkEntry "data:,b" 10 7));
        ("thumbnail_c"%string, JSON.stringify (mkEntry "data:,c" 20 7))];
     accepts := limit_pairs 3;
     setItem_log := [] |}.

(** The storage after one call of [set] at clock reading 1000 on an empty
    storage without quota. *)
Definition world_one_entry : World := (set "a" "data:,a" 1000 1000 empty_world).1.

(** A storage that takes no write. *)
Definition reject_all (its : list (string * Stored)) (k : string) (v : Stored) : bool :=
  false.

(** A full storage that begins with two unparsable values of the namespace,
    followed by the entry "old", stamped 1, and the entries "e1" to "e11",
    stamped 2 to 12. *)
Definition world_two_unparsable : World :=
  {| items :=
       [("thumbnail_g1"%string, TGarbage);
        ("thumbnail_g2"%string, TGarbage);
        ("thumbnail_old"%string, JSON.stringify (mkEntry "data:,old" 1 9))]
       ++ ((fun i => (CACHE_PREFIX +:+ "e" +:+ pretty i,
                      JSON.stringify (mkEntry "data:,e" (Z.of_nat (1 + i)) 7)))
           <$> seq 1 11);
     accepts := reject_all;
     setItem_log := [] |}.

(** A storage with one value that is not JSON under the cache's namespace. *)
Definition world_garbage : World :=
  {| items := [("thumbnail_a"%string, TGarbage)];
     accepts := accept_all;
     setItem_log := [] |}.

(** A storage without quota that holds 100 entries under the ids "m0" to
    "m99", each with the recorded size 0.5 MiB. *)
Definition world_at_capacity : World :=
  {| items :=
       (fun i => (CACHE_PREFIX +:+ "m" +:+ pretty i,
                  JSON.stringify (mkEntry "data:," (Z.of_nat i) 524288)))
       <$> seq 0 100;
     accepts := accept_all;
     setItem_log := [] |}.

(** A storage in which a key of the cache's namespace holds the JSON text
    [null]. *)
Definition world_null : World :=
  {| items := [("thumbnail_x"%string, TJson JNull)];
     accepts := accept_all;
     setItem_log := [] |}.

(** A storage in which a key of the cache's namespace holds the JSON text of
    the empty object: every read on the parsed value gives [undefined]. *)
Definition world_empty_object : World :=
  {| items := [("thumbnail_x"%string, TJson (JOther JsUndefined NaN NaN))];
     accepts := accept_all;
     setItem_log := [] |}.

(** Two 2D drawings shown by a grid that starts with an empty cache. *)
Definition two_drawings : list ToolGrid.Model :=
  [ToolGrid.mkModel "A" ToolGrid.T2d; ToolGrid.mkModel "B" ToolGrid.T2d].

Definition grid_mounted : ToolGrid.State := ToolGrid.mount two_drawings empty_world 0.

(** The URL of "A" arrives, then the URL of "B", while the image of "A" is
    still being decoded. *)
Definition urls_arrive : list ToolGrid.Event :=
  [ToolGrid.FetchResolved "A" "https://files/A";
   ToolGrid.FetchResolved "B" "https://files/B"].

(** Then the images started for "A" finish loading. *)
Definition images_of_A_load : list ToolGrid.Event :=
  [ToolGrid.ImageLoaded "A" "https://files/A" "data:image/png;base64,AAAA" 10;
   ToolGrid.ImageLoaded "A" "https://files/A" "data:image/png;base64,AAAA" 20].

(** 101 calls with distinct ids at increasing clock readings, except that the
    calls for "zz" and then "aa" fall in the same millisecond, 20. *)
Definition calls_with_tie : list SetCall :=
  distinct_calls 20 "data:,"
  ++ [mkSetCall "zz" "data:," 20; mkSetCall "aa" "data:," 20]
  ++ ((fun i => mkSetCall ("n" +:+ pretty i) "data:," (Z.of_nat (21 + i))) <$> seq 0 79).

Definition world_with_tie : World := run_sets calls_with_tie empty_world.

(** ** Views used for the further properties of the cache *)

(** A key under the cache's namespace. *)
Definition namespaced (k : string) : Prop := String.prefix CACHE_PREFIX k = true.

(** The pairs of the storage that do not belong to the cache, in storage
    order. *)
Definition foreign (its : list (string * Stored)) : list (string * Stored) :=
  filter (fun kv => ¬ namespaced kv.1) its.

(** The number of live entries. *)
Definition entry_count (its : list (string * Stored)) : Z :=
  Z.of_nat (List.length (cache_entries its)).

(** A call of one of the public operations of [ThumbnailCache], with the
    clock readings it makes. *)
Inductive CacheOp : Type :=
  | OpSet (modelId dataUrl : string) (now retryNow : Z)
  | OpGet (modelId : string) (now : Z)
  | OpHas (modelId : string) (now : Z)
  | OpRemove (modelId : string)
  | OpClear
  | OpCleanup (count : Z)
  | OpGetStats
  | OpGetCacheSize.

(** The storage after a call; the value returned is dropped. *)
Definition run_op (w : World) (op : CacheOp) : World :=
  match op with
  | OpSet modelId dataUrl now retryNow => (set modelId dataUrl now retryNow w).1
  | OpGet modelId now => (get modelId now w).1
  | OpHas modelId now => (has modelId now w).1
  | OpRemove modelId => (remove modelId w).1
  | OpClear => (clear w).1
  | OpCleanup count => (cleanup count w).1
  | OpGetStats => (getStats w).1
  | OpGetCacheSize => (getCacheSize w).1
  end.

Definition run_ops (ops : list CacheOp) (w : World) : World := foldl run_op w ops.

(** ** Formatting a size

    [ThumbnailCache.formatSize], [formatFileSize] in [ToolGrid] and
    [formatFileSize] in [App] are the same function. Its argument is a byte
    count: an integer from 0 to below 2^53, so that the quotients by 1024 and
    1024 * 1024 are exact doubles and are the rationals of the model. *)

(** [x.toFixed(1)] for [x >= 0]: the integer [n] nearest to [10 * x], the
    larger one of two, printed with a point before its last digit. *)
Definition show_tenths (n : Z) : string :=
  pretty (n / 10) +:+ "." +:+ pretty (n mod 10).

Definition toFixed1 (x : Q) : string :=
  show_tenths (Qfloor (x * 10 + (1 # 2))).

Definition formatSize (bytes : Z) : string :=
  if bytes <? 1024 then pretty bytes +:+ " B"
  else if bytes <? 1024 * 1024 then toFixed1 (inject_Z bytes / 1024) +:+ " KB"
  else toFixed1 (inject_Z bytes / (1024 * 1024)) +:+ " MB".

(** A storage that begins with an unparsable value of the namespace, followed
    by an entry. *)
Definition world_garbage_then_entry : World :=
  {| items :=
       [("thumbnail_a"%string, TGarbage);
        ("thumbnail_b"%string, JSON.stringify (mkEntry "data:,b" 10 7))];
     accepts := accept_all;
     setItem_log := [] |}.

(** ** Deleting a model in the grid *)


(** A grid of one drawing whose thumbnail is in the cache when the grid
    mounts. *)
Definition grid_cached : ToolGrid.State :=
  ToolGrid.mount [ToolGrid.mkModel "a" ToolGrid.T2d] world_one_entry 2000.

(** A grid that shows the drawing "A" while the image for its thumbnail is
    loading. *)
Definition grid_loading_A : ToolGrid.State :=
  default grid_mounted
    (ToolGrid.run [ToolGrid.FetchResolved "A" "https://files/A"] grid_mounted).

(** ** The 2D viewer: zoom and pan (ModelViewer2D.tsx) *)

Module ModelViewer2D.

Record Point : Type := mkPoint { px : Z; py : Z }.

(** The state of the component that the handlers read and write: [zoom] in
    percent, [position] of the image, [isDragging] and [dragStart]. *)
Record State : Type := mkState
  { zoom : Z;
    position : Point;
    isDragging : bool;
    dragStart : Point }.

(** [useState(100)], [useState({ x: 0, y: 0 })], [useState(false)],
    [useState({ x: 0, y: 0 })] *)
Definition initial : State :=
  {| zoom := 100; position := mkPoint 0 0; isDragging := false; dragStart := mkPoint 0 0 |}.

(** The events the component handles. Pointer coordinates are whole pixels;
    of [deltaY] only the sign is read. *)
Inductive Event : Type :=
  | ZoomIn
  | ZoomOut
  | ResetView
  | MouseDown (button clientX clientY : Z)
  | MouseMove (clientX clientY : Z)
  | MouseUp
  | Wheel (deltaY : Q).

(** [handleZoomIn], [handleZoomOut], [handleResetView], [handleMouseDown],
    [handleMouseMove], [handleMouseUp] (and the global [mouseup] listener),
    [handleWheel]; each handler runs on the state the previous one left. *)
Definition handle (ev : Event) (s : State) : State :=
  match ev with
  | ZoomIn =>
      {| zoom := Z.min (zoom s + 25) 300; position := position s;
         isDragging := isDragging s; dragStart := dragStart s |}
  | ZoomOut =>
      {| zoom := Z.max (zoom s - 25) 25; position := position s;
         isDragging := isDragging s; dragStart := dragStart s |}
  | ResetView =>
      {| zoom := 100; position := mkPoint 0 0;
         isDragging := isDragging s; dragStart := dragStart s |}
  | MouseDown button clientX clientY =>
      if (button =? 0)%Z then
        {| zoom := zoom s; position := position s;
           isDragging := true;
           dragStart := mkPoint (clientX - px (position s)) (clientY - py (position s)) |}
      else s
  | MouseMove clientX clientY =>
      if isDragging s then
        {| zoom := zoom s;
           position := mkPoint (clientX - px (dragStart s)) (clientY - py (dragStart s));
           isDragging := isDragging s; dragStart := dragStart s |}
      else s
  | MouseUp =>
      {| zoom := zoom s; position := position s;
         isDragging := false; dragStart := dragStart s |}
  | Wheel deltaY =>
      let delta := if Qlt_le_dec 0 deltaY then -10 else 10 in
      {| zoom := Z.max 25 (Z.min 300 (zoom s + delta)); position := position s;
         isDragging := isDragging s; dragStart := dragStart s |}
  end.

Definition run (evs : list Event) (s : State) : State :=
  foldl (fun s ev => handle ev s) s evs.

Definition moves (path : list Point) : list Event :=
  (fun p => MouseMove (px p) (py p)) <$> path.

End ModelViewer2D.

(** ** Facts about the storage operations *)

Section StorageFacts.

Implicit Types (its : list (string * Stored)) (k : string) (v : Stored).

Lemma with_items_id w : with_items w (items w) = w.
Proof. by destruct w. Qed.

Lemma assoc_lookup_nth its i k v :
  NoDup its.*1 → its !! i = Some (k, v) → assoc_lookup k its = Some v.
Proof.
  revert i. induction its as [|[k' v'] its IH]; intros i Hnd Hi; [done|].
  apply NoDup_cons in Hnd as [Hk' Hnd]. destruct i as [|i]; simpl in *.
  - injection Hi as -> ->. by rewrite String.eqb_refl.
  - destruct (String.eqb_spec k k') as [->|_]; [|by eapply IH].
    exfalso. apply Hk'. apply list_elem_of_fmap. exists (k', v).
    split; [done|]. by eapply list_elem_of_lookup_2.
Qed.

Lemma assoc_lookup_None its k : assoc_lookup k its = None ↔ k ∉ its.*1.
Proof.
  induction its as [|[k' v'] its IH]; simpl.
  - split; [intros _; apply not_elem_of_nil | done].
  - rewrite not_elem_of_cons. destruct (String.eqb_spec k k') as [->|Hne].
    + split; [discriminate|]. by intros [? _].
    + rewrite IH. split; [by intros ?|by intros [_ ?]].
Qed.

Lemma assoc_remove_filter its k :
  assoc_remove k its = filter (fun kv => kv.1 ≠ k) its.
Proof.
  induction its as [|[k' v'] its IH]; [done|]. simpl.
  rewrite filter_cons. simpl.
  destruct (String.eqb_spec k k') as [->|Hne].
  - by rewrite decide_False by naive_solver.
  - rewrite decide_True by naive_solver. by rewrite IH.
Qed.

Lemma assoc_lookup_remove its k : assoc_lookup k (assoc_remove k its) = None.
Proof.
  induction its as [|[k' v'] its IH]; [done|]. simpl.
  destruct (String.eqb_spec k k') as [->|Hne]; [done|]. simpl.
  by destruct (String.eqb_spec k k').
Qed.

Lemma assoc_upsert_fresh its k v :
  assoc_lookup k its = None → assoc_upsert k v its = its ++ [(k, v)].
Proof.
  induction its as [|[k' v'] its IH]; [done|]. simpl.
  destruct (String.eqb_spec k k'); [done|]. intros H. by rewrite IH.
Qed.

Lemma assoc_lookup_upsert its k v : assoc_lookup k (assoc_upsert k v its) = Some v.
Proof.
  induction its as [|[k' v'] its IH]; simpl.
  - by rewrite String.eqb_refl.
  - destruct (String.eqb_spec k k') as [->|Hne]; simpl.
    + by rewrite String.eqb_refl.
    + by destruct (String.eqb_spec k k').
Qed.

Lemma without_keys_nil its : without_keys [] its = its.
Proof.
  unfold without_keys. induction its as [|kv its IH]; [done|].
  rewrite filter_cons, decide_True by apply not_elem_of_nil. by rewrite IH.
Qed.

Lemma without_keys_cons k ks its :
  without_keys (k :: ks) its = without_keys ks (assoc_remove k its).
Proof.
  unfold without_keys. rewrite assoc_remove_filter.
  induction its as [|kv its IH]; [done|].
  rewrite !filter_cons.
  destruct (decide (kv.1 = k)) as [->|Hne].
  - rewrite decide_False by (intros Hk; apply Hk, list_elem_of_here).
    by rewrite decide_False by (intros Hk; by apply Hk).
  - rewrite (decide_True (P := kv.1 ≠ k)) by done.
    rewrite filter_cons.
    destruct (decide (kv.1 ∈ ks)) as [Hin|Hnin].
    + rewrite !decide_False; [done|by intros Hk|].
      intros Hk. apply Hk. by apply list_elem_of_further.
    + rewrite !decide_True; [by rewrite IH|done|].
      by intros [?|?]%elem_of_cons.
Qed.

End StorageFacts.

(** ** The enumeration on a well-formed storage *)

Ltac js_unfold :=
  unfold bind, try_catch, ret, throw, localStorage.length, localStorage.key,
    localStorage.getItem, localStorage.removeItem, JSON.parse, field_dataUrl,
    field_timestamp, field_size.

Section EnumerationFacts.

Implicit Types (w : World) (its : list (string * Stored)).

Lemma entry_ok_of kv :
  entry_ok kv = true → String.prefix CACHE_PREFIX kv.1 = true →
  ∃ e, kv.2 = TJson (JEntry e) ∧ entry_of kv = Some (kv.1, e).
Proof.
  unfold entry_ok, entry_of. intros Hok Hp. rewrite Hp in *.
  destruct kv.2 as [| |[|e|d t s]]; try done. by exists e.
Qed.

Lemma entry_of_no_prefix kv :
  String.prefix CACHE_PREFIX kv.1 = false → entry_of kv = None.
Proof. unfold entry_of. by intros ->. Qed.

Lemma forallb_lookup {A} (f : A → bool) (l : list A) i x :
  forallb f l = true → l !! i = Some x → f x = true.
Proof.
  rewrite forallb_forall. intros H Hi. apply H.
  apply list_elem_of_In. by eapply list_elem_of_lookup_2.
Qed.

(** With enough fuel the loop returns the live entries from index [i] on and
    leaves a well-formed storage as it is. *)
Lemma getAllEntries_loop_well_formed w fuel i acc :
  well_formed (items w) →
  (List.length (items w) ≤ i + fuel)%nat →
  getAllEntries_loop fuel i acc w
  = (w, Normal (acc ++ (as_json <$> cache_entries (drop i (items w))))).
Proof.
  intros [Hnd Hok]. revert i acc.
  induction fuel as [|fuel IH]; intros i acc Hlen.
  - simpl. rewrite drop_ge by lia. by rewrite app_nil_r.
  - simpl. js_unfold. simpl.
    destruct (Nat.ltb_spec i (List.length (items w))) as [Hlt|Hge].
    + destruct (lookup_lt_is_Some_2 (items w) i Hlt) as [[k v] Hi].
      rewrite Hi. simpl. rewrite (drop_S _ _ _ Hi). unfold cache_entries. simpl.
      destruct (String.prefix CACHE_PREFIX k) eqn:Hp.
      * rewrite (assoc_lookup_nth _ _ _ _ Hnd Hi).
        destruct (entry_ok_of (k, v)) as (e & Hv & He);
          [by eapply forallb_lookup|done|].
        simpl in Hv. subst v. rewrite He. simpl.
        rewrite IH by lia. by rewrite <- app_assoc.
      * rewrite entry_of_no_prefix by done. apply IH. lia.
    + rewrite drop_ge by lia. by rewrite app_nil_r.
Qed.

Lemma getAllEntries_well_formed w :
  well_formed (items w) →
  getAllEntries w = (w, Normal (as_json <$> cache_entries (items w))).
Proof.
  intros Hwf. unfold getAllEntries. js_unfold.
  by rewrite getAllEntries_loop_well_formed by (done || lia).
Qed.

Lemma total_size_from w es acc :
  Array_reduce (fun total x => s <- field_size (snd x) ;; ret (number_add total s))
    (as_json <$> es) (Num acc) w
  = (w, Normal (Num (acc + sum_sizes es))).
Proof.
  revert acc. induction es as [|x es IH]; intros acc; simpl.
  - unfold ret. do 3 f_equal. lia.
  - js_unfold. simpl. rewrite IH. do 3 f_equal. lia.
Qed.

Lemma total_size_well_formed w es :
  total_size (as_json <$> es) w = (w, Normal (Num (sum_sizes es))).
Proof. unfold total_size. by rewrite total_size_from. Qed.

Lemma forEach_removeItem w (es : list (string * JsonValue)) :
  Array_forEach (fun x => localStorage.removeItem (fst x)) es w
  = (with_items w (without_keys es.*1 (items w)), Normal tt).
Proof.
  revert w. induction es as [|x es IH]; intros w.
  - simpl. by rewrite without_keys_nil, with_items_id.
  - simpl. js_unfold. rewrite IH. by rewrite without_keys_cons.
Qed.

End EnumerationFacts.

(** ** The sort by timestamp *)

Section SortFacts.

Implicit Types (x y : string * CacheEntry) (l : list (string * CacheEntry)).

Lemma sort_insert_entries w x l :
  sort_insert by_timestamp (as_json x) (as_json <$> l) w
  = (w, Normal (as_json <$> insert_ts x l)).
Proof.
  induction l as [|y l IH]; [done|].
  simpl. unfold by_timestamp at 1. js_unfold. simpl.
  destruct (timestamp x.2 - timestamp y.2 <=? 0); [done|].
  change (list_fmap _ _ as_json l) with (as_json <$> l). by rewrite IH.
Qed.

Lemma Array_sort_entries w l :
  Array_sort by_timestamp (as_json <$> l) w = (w, Normal (as_json <$> sort_ts l)).
Proof.
  induction l as [|x l IH]; [done|].
  simpl. unfold bind at 1.
  change (list_fmap _ _ as_json l) with (as_json <$> l).
  rewrite IH. apply sort_insert_entries.
Qed.

Lemma insert_ts_Permutation x l : insert_ts x l ≡ₚ x :: l.
Proof.
  induction l as [|y l IH]; [done|]. simpl.
  destruct (timestamp x.2 - timestamp y.2 <=? 0); [done|].
  rewrite IH. apply Permutation_swap.
Qed.

Lemma sort_ts_Permutation l : sort_ts l ≡ₚ l.
Proof.
  induction l as [|x l IH]; [done|]. simpl.
  by rewrite insert_ts_Permutation, IH.
Qed.

Lemma sort_ts_length l : List.length (sort_ts l) = List.length l.
Proof. by rewrite sort_ts_Permutation. Qed.

Lemma insert_ts_sorted x l :
  StronglySorted older_eq l → StronglySorted older_eq (insert_ts x l).
Proof.
  induction 1 as [|y l Hl IH Hy]; simpl.
  - repeat constructor.
  - destruct (Z.leb_spec (timestamp x.2 - timestamp y.2) 0) as [Hle|Hgt].
    + constructor; [by constructor|].
      constructor; [unfold older_eq; lia|].
      eapply Forall_impl; [exact Hy|]. unfold older_eq. intros z Hz. lia.
    + constructor; [done|].
      rewrite (Forall_Permutation (older_eq y) (older_eq y) (fun _ => reflexivity _)
                 _ _ (insert_ts_Permutation x l)).
      constructor; [unfold older_eq; lia|done].
Qed.

Lemma sort_ts_sorted l : StronglySorted older_eq (sort_ts l).
Proof.
  induction l as [|x l IH]; simpl; [constructor|]. by apply insert_ts_sorted.
Qed.

(** Stability: entries that carry the same timestamp keep their order. *)
Lemma insert_ts_stable (t : Z) x l :
  filter (fun y => timestamp y.2 = t) (insert_ts x l)
  = filter (fun y => timestamp y.2 = t) (x :: l).
Proof.
  induction l as [|y l IH]; [done|]. simpl.
  destruct (Z.leb_spec (timestamp x.2 - timestamp y.2) 0) as [Hle|Hgt]; [done|].
  rewrite filter_cons, IH, !filter_cons.
  destruct (decide (timestamp y.2 = t)), (decide (timestamp x.2 = t)); try done. lia.
Qed.

Lemma sort_ts_stable (t : Z) l :
  filter (fun y => timestamp y.2 = t) (sort_ts l)
  = filter (fun y => timestamp y.2 = t) l.
Proof.
  induction l as [|x l IH]; [done|]. simpl.
  by rewrite insert_ts_stable, !filter_cons, IH.
Qed.

End SortFacts.

(** ** Eviction on a well-formed storage *)

Section EvictionFacts.

Implicit Types (w : World) (its : list (string * Stored)) (ks : list string).

Lemma filter_all {A} (P : A → Prop) `{∀ x, Decision (P x)} (l : list A) :
  Forall P l → filter P l = l.
Proof.
  induction 1 as [|x l Hx Hl IH]; [done|].
  by rewrite filter_cons, decide_True, IH.
Qed.

Lemma filter_none {A} (P : A → Prop) `{∀ x, Decision (P x)} (l : list A) :
  Forall (fun x => ¬ P x) l → filter P l = [].
Proof.
  induction 1 as [|x l Hx Hl IH]; [done|].
  by rewrite filter_cons, decide_False, IH.
Qed.

Lemma well_formed_without_keys ks its :
  well_formed its → well_formed (without_keys ks its).
Proof.
  intros [Hnd Hok]. split.
  - eapply sublist_NoDup; [exact Hnd|].
    apply fmap_sublist, sublist_filter.
  - apply forallb_forall. intros kv Hin.
    apply list_elem_of_In, list_elem_of_filter in Hin as [_ Hin].
    rewrite forallb_forall in Hok. by apply Hok, list_elem_of_In.
Qed.

Lemma entry_of_key kv x : entry_of kv = Some x → x.1 = kv.1.
Proof.
  unfold entry_of. destruct (String.prefix CACHE_PREFIX kv.1); [|done].
  destruct kv.2 as [| |[|e|d t s]]; try done. by intros [= <-].
Qed.

Lemma omap_cons {A B} (f : A → option B) (x : A) (l : list A) :
  omap f (x :: l) = match f x with Some y => y :: omap f l | None => omap f l end.
Proof. done. Qed.

Lemma cache_entries_without_keys ks its :
  cache_entries (without_keys ks its)
  = filter (fun x => x.1 ∉ ks) (cache_entries its).
Proof.
  unfold cache_entries, without_keys.
  induction its as [|kv its IH]; [done|].
  rewrite filter_cons, (omap_cons _ kv its).
  destruct (decide (kv.1 ∉ ks)) as [Hk|Hk].
  - rewrite omap_cons, IH. destruct (entry_of kv) as [x|] eqn:He; [|done].
    rewrite filter_cons, decide_True; [done|].
    by rewrite (entry_of_key _ _ He).
  - rewrite IH. destruct (entry_of kv) as [x|] eqn:He; [|done].
    rewrite filter_cons, decide_False; [done|].
    by rewrite (entry_of_key _ _ He).
Qed.

Lemma cache_entries_keys_sublist its : (cache_entries its).*1 `sublist_of` its.*1.
Proof.
  unfold cache_entries. induction its as [|kv its IH]; [done|]. simpl.
  unfold entry_of at 1.
  destruct (String.prefix CACHE_PREFIX kv.1); [|by apply sublist_cons].
  destruct kv.2 as [| |[|e|d t s]]; try by apply sublist_cons.
  simpl. by apply sublist_skip.
Qed.

Lemma cache_entries_NoDup its : well_formed its → NoDup (cache_entries its).*1.
Proof.
  intros [Hnd _]. eapply sublist_NoDup; [exact Hnd|apply cache_entries_keys_sublist].
Qed.

Lemma as_json_keys (l : list (string * CacheEntry)) : (as_json <$> l).*1 = l.*1.
Proof. rewrite <- list_fmap_compose. by apply list_fmap_ext. Qed.

(** [cleanup count] on a well-formed storage: it returns normally and removes
    the keys of the first [min count n] entries of the sorted enumeration. *)
Lemma cleanup_well_formed w count :
  well_formed (items w) → 0 <= count →
  cleanup count w
  = (with_items w
       (without_keys
          (take (Z.to_nat (Z.min count (Z.of_nat (List.length (cache_entries (items w))))))
             (sort_ts (cache_entries (items w)))).*1
          (items w)),
     Normal tt).
Proof.
  intros Hwf Hcount. unfold cleanup, try_catch, bind at 1.
  rewrite getAllEntries_well_formed by done.
  unfold bind. rewrite Array_sort_entries.
  unfold Array_slice0. rewrite length_fmap, sort_ts_length.
  destruct (Z.ltb_spec (Z.min count (Z.of_nat (List.length (cache_entries (items w))))) 0);
    [lia|].
  rewrite forEach_removeItem.
  by rewrite <- fmap_take, as_json_keys.
Qed.

Lemma removeCount_bounds (n : Z) : 0 <= n → 0 <= removeCount n <= n.
Proof.
  intros Hn. unfold removeCount, MAX_CACHE_ITEMS, ceil_times_0_2, Qceiling, Qfloor.
  simpl. Z.to_euclidean_division_equations. lia.
Qed.

Lemma cleanupIfNeeded_well_formed w :
  well_formed (items w) →
  cleanupIfNeeded w
  = if (sum_sizes (cache_entries (items w)) >? MAX_CACHE_SIZE)
       || (Z.of_nat (List.length (cache_entries (items w))) >? MAX_CACHE_ITEMS)
    then cleanup (removeCount (Z.of_nat (List.length (cache_entries (items w))))) w
    else (w, Normal tt).
Proof.
  intros Hwf. unfold cleanupIfNeeded, bind.
  rewrite getAllEntries_well_formed by done.
  rewrite total_size_well_formed, length_fmap.
  by destruct (_ || _).
Qed.

End EvictionFacts.

(** ** Capacity eviction *)

Section Eviction.

Implicit Types (w : World).

Lemma cleanupIfNeeded_result w :
  well_formed (items w) →
  ∃ its', cleanupIfNeeded w = (with_items w its', Normal tt) ∧ well_formed its'.
Proof.
  intros Hwf. rewrite cleanupIfNeeded_well_formed by done.
  destruct (_ || _).
  - rewrite cleanup_well_formed; [|done|apply removeCount_bounds; lia].
    eexists. split; [done|]. by apply well_formed_without_keys.
  - exists (items w). by rewrite with_items_id.
Qed.

Lemma kept_after_removal (removed kept : list (string * CacheEntry)) :
  NoDup (removed ++ kept).*1 →
  filter (fun x => x.1 ∉ removed.*1) (removed ++ kept) = kept.
Proof.
  rewrite fmap_app. intros (_ & Hdisj & _)%NoDup_app.
  rewrite filter_app, filter_none, filter_all; [done| |].
  - apply Forall_forall. intros x Hx Hin. eapply Hdisj; [exact Hin|].
    apply list_elem_of_fmap. by exists x.
  - apply Forall_forall. intros x Hx Hnin. apply Hnin.
    apply list_elem_of_fmap. by exists x.
Qed.

(** What [cleanup count] removes from a well-formed storage, as a
    specification: a split of the enumeration into the [min count n] removed
    entries and the kept ones, no kept entry older than a removed one, and
    among equal timestamps the removed ones first in enumeration order. *)
Lemma cleanup_oldest_first w (count : Z) :
  well_formed (items w) → 0 <= count →
  ∃ removed kept : list (string * CacheEntry),
    cleanup count w = (with_items w (without_keys removed.*1 (items w)), Normal tt)
    ∧ cache_entries (without_keys removed.*1 (items w)) ≡ₚ kept
    ∧ cache_entries (items w) ≡ₚ removed ++ kept
    ∧ Z.of_nat (List.length removed)
      = Z.min count (Z.of_nat (List.length (cache_entries (items w))))
    ∧ (∀ r k, r ∈ removed → k ∈ kept → timestamp r.2 <= timestamp k.2)
    ∧ (∀ t : Z,
         filter (fun x => timestamp x.2 = t) (cache_entries (items w))
         = filter (fun x => timestamp x.2 = t) removed
           ++ filter (fun x => timestamp x.2 = t) kept).
Proof.
  intros Hwf Hcount.
  set (es := cache_entries (items w)).
  set (m := Z.to_nat (Z.min count (Z.of_nat (List.length es)))).
  exists (take m (sort_ts es)), (drop m (sort_ts es)).
  assert (Hperm : es ≡ₚ take m (sort_ts es) ++ drop m (sort_ts es)).
  { by rewrite take_drop, sort_ts_Permutation. }
  split_and!.
  - by apply cleanup_well_formed.
  - rewrite cache_entries_without_keys. fold es.
    rewrite (filter_Permutation _ _ _ Hperm).
    rewrite kept_after_removal; [done|].
    rewrite <- Hperm. by apply cache_entries_NoDup.
  - done.
  - rewrite length_take, sort_ts_length. unfold m. lia.
  - intros r k Hr Hk.
    by apply (StronglySorted_app_1_elem_of older_eq _ _ r k
                (eq_ind_r _ (sort_ts_sorted es) (take_drop m (sort_ts es)))).
  - intros t. by rewrite <- filter_app, take_drop, sort_ts_stable.
Qed.

(** C3, as the code has it. When a [set] call finds the cache over a limit
    (its well-formed storage holds [count] live entries, with [count > 100] or
    a total recorded size above 50 MiB), the eviction [cleanupIfNeeded] that
    runs before the write completes normally and removes exactly
    [max (count - 100 + 10) (ceil (count * 0.2))] entries: the enumeration is
    split into [removed] and [kept], the storage loses the keys of [removed]
    and nothing else, no kept entry has a smaller timestamp than a removed one,
    and among entries of equal timestamp the removed ones come first in the
    order in which [localStorage.key] enumerates them: the sort compares
    timestamps only and is stable, the keys are never compared. The write of
    [set] then runs on the storage so obtained. *)
Theorem C3_eviction_count_and_order w :
  well_formed (items w) →
  let es := cache_entries (items w) in
  let count := Z.of_nat (List.length es) in
  (sum_sizes es > MAX_CACHE_SIZE ∨ count > MAX_CACHE_ITEMS) →
  ∃ removed kept : list (string * CacheEntry),
    cleanupIfNeeded w = (with_items w (without_keys removed.*1 (items w)), Normal tt)
    ∧ cache_entries (without_keys removed.*1 (items w)) ≡ₚ kept
    ∧ es ≡ₚ removed ++ kept
    ∧ Z.of_nat (List.length removed)
      = Z.max (count - 100 + 10) (Qceiling (inject_Z count * (2 # 10)))
    ∧ (∀ r k, r ∈ removed → k ∈ kept → timestamp r.2 <= timestamp k.2)
    ∧ (∀ t : Z,
         filter (fun x => timestamp x.2 = t) es
         = filter (fun x => timestamp x.2 = t) removed
           ++ filter (fun x => timestamp x.2 = t) kept)
    ∧ (∀ modelId dataUrl now retryNow,
         set modelId dataUrl now retryNow w
         = try_catch
             (localStorage.setItem (CACHE_PREFIX +:+ modelId)
                (JSON.stringify
                   {| dataUrl := dataUrl; timestamp := now; size := str_length dataUrl |}))
             (fun _ =>
                cleanup 10 ;;
                try_catch
                  (localStorage.setItem (CACHE_PREFIX +:+ modelId)
                     (JSON.stringify
                        {| dataUrl := dataUrl; timestamp := retryNow;
                           size := str_length dataUrl |}))
                  (fun _ => ret tt))
             (with_items w (without_keys removed.*1 (items w)))).
Proof.
  intros Hwf es count Htrigger.
  pose proof (removeCount_bounds count ltac:(lia)) as Hbounds.
  destruct (cleanup_oldest_first w (removeCount count) Hwf ltac:(lia))
    as (removed & kept & Hrun & Hkept & Hperm & Hlen & Hold & Hties).
  assert (Hcl : cleanupIfNeeded w
                = (with_items w (without_keys removed.*1 (items w)), Normal tt)).
  { rewrite cleanupIfNeeded_well_formed by done. fold es count.
    replace ((sum_sizes es >? MAX_CACHE_SIZE) || (count >? MAX_CACHE_ITEMS))
      with true; [done|].
    symmetry. apply orb_true_iff. destruct Htrigger; [left|right]; lia. }
  exists removed, kept. split_and!; try done.
  - rewrite Hlen. fold es count. unfold removeCount in Hbounds.
    unfold removeCount, MAX_CACHE_ITEMS, ceil_times_0_2 in *. lia.
  - intros modelId dataUrl now retryNow.
    unfold set, try_catch at 1, bind at 1. by rewrite Hcl.
Qed.

End Eviction.

Ltac well_formed_by_computation :=
  split; [apply (bool_decide_unpack _); vm_compute; exact I | vm_compute; reflexivity].

Lemma C3_eviction_count_and_order_witness :
  well_formed (items world_101)
  ∧ Z.of_nat (List.length (cache_entries (items world_101))) > MAX_CACHE_ITEMS
  ∧ ∃ removed kept : list (string * CacheEntry),
      cleanupIfNeeded world_101
      = (with_items world_101 (without_keys removed.*1 (items world_101)), Normal tt)
      ∧ cache_entries (items world_101) ≡ₚ removed ++ kept
      ∧ Z.of_nat (List.length removed) = 21
      ∧ (∀ r k, r ∈ removed → k ∈ kept → timestamp r.2 <= timestamp k.2).
Proof.
  assert (Hwf : well_formed (items world_101)) by well_formed_by_computation.
  assert (Hn : Z.of_nat (List.length (cache_entries (items world_101))) = 101)
    by (vm_compute; reflexivity).
  assert (Hover : Z.of_nat (List.length (cache_entries (items world_101))) > MAX_CACHE_ITEMS)
    by (rewrite Hn; reflexivity).
  split; [exact Hwf|]. split; [exact Hover|].
  destruct (C3_eviction_count_and_order world_101 Hwf (or_intror Hover))
    as (removed & kept & Hrun & _ & Hperm & Hlen & Hold & _).
  exists removed, kept. split; [exact Hrun|]. split; [exact Hperm|].
  split; [|exact Hold].
  rewrite Hlen, Hn. reflexivity.
Defined.

(** ** Write failures *)

Section WriteFailure.

Implicit Types (w : World).

(** When the storage rejects the write of [set] (here on a well-formed
    storage, after the capacity check), [set] runs [cleanup(10)], which removes
    the [min 10 n] oldest of the [n] live entries, then calls [setItem] once
    more, with the second clock reading; the log of [setItem] calls grows by
    exactly these two attempts, and [set] completes normally whether the
    second attempt is taken ([ok = true], the entry is stored) or rejected
    ([ok = false], nothing is stored). *)
Lemma write_failure_retries_once_on_entries w (modelId dataUrl : string)
  (now retryNow : Z) :
  well_formed (items w) →
  let key := CACHE_PREFIX +:+ modelId in
  let text := fun t : Z =>
    JSON.stringify {| dataUrl := dataUrl; timestamp := t; size := str_length dataUrl |} in
  let w1 := (cleanupIfNeeded w).1 in
  accepts w (items w1) key (text now) = false →
  ∃ removed kept : list (string * CacheEntry),
    cache_entries (items w1) ≡ₚ removed ++ kept
    ∧ Z.of_nat (List.length removed)
      = Z.min 10 (Z.of_nat (List.length (cache_entries (items w1))))
    ∧ (∀ r k, r ∈ removed → k ∈ kept → timestamp r.2 <= timestamp k.2)
    ∧ (∀ t : Z,
         filter (fun x => timestamp x.2 = t) (cache_entries (items w1))
         = filter (fun x => timestamp x.2 = t) removed
           ++ filter (fun x => timestamp x.2 = t) kept)
    ∧ let its2 := without_keys removed.*1 (items w1) in
      let ok := accepts w its2 key (text retryNow) in
      set modelId dataUrl now retryNow w
      = ({| items := if ok then assoc_upsert key (text retryNow) its2 else its2;
            accepts := accepts w;
            setItem_log :=
              setItem_log w ++ [(key, text now, false); (key, text retryNow, ok)] |},
         Normal tt).
Proof.
  intros Hwf key text w1 Hrej.
  destruct (cleanupIfNeeded_result w Hwf) as (its1 & Hcl & Hwf1).
  subst w1 text. rewrite Hcl in *. cbv beta in *. simpl in Hrej.
  set (v1 := JSON.stringify
               {| dataUrl := dataUrl; timestamp := now; size := str_length dataUrl |}) in *.
  set (v2 := JSON.stringify
               {| dataUrl := dataUrl; timestamp := retryNow; size := str_length dataUrl |}).
  set (w1' := {| items := its1; accepts := accepts w;
                 setItem_log := setItem_log w ++ [(key, v1, false)] |}).
  destruct (cleanup_oldest_first w1' 10 Hwf1 ltac:(lia))
    as (removed & kept & Hrun & _ & Hperm & Hlen & Hold & Hties).
  exists removed, kept. split_and!; try done.
  unfold set, try_catch at 1, bind at 1. rewrite Hcl.
  unfold localStorage.setItem at 1. fold key v1 v2.
  change (accepts (with_items w its1) (items (with_items w its1)) key v1)
    with (accepts w its1 key v1).
  rewrite Hrej. unfold bind.
  change (cleanup 10 _) with (cleanup 10 w1'). rewrite Hrun.
  unfold try_catch, localStorage.setItem, with_items. simpl.
  destruct (accepts w (without_keys removed.*1 its1) key v2);
    simpl; by rewrite <- app_assoc.
Qed.

End WriteFailure.

Lemma write_failure_retries_once_on_entries_witness :
  well_formed (items world_full)
  ∧ accepts world_full (items (cleanupIfNeeded world_full).1)
      (CACHE_PREFIX +:+ "d") (JSON.stringify (mkEntry "data:,d" 40 (str_length "data:,d")))
    = false
  ∧ ∃ removed : list (string * CacheEntry),
      Z.of_nat (List.length removed) = 3
      ∧ let its2 := without_keys removed.*1 (items (cleanupIfNeeded world_full).1) in
        let ok :=
          accepts world_full its2 (CACHE_PREFIX +:+ "d")
            (JSON.stringify (mkEntry "data:,d" 41 (str_length "data:,d"))) in
        set "d" "data:,d" 40 41 world_full
        = ({| items :=
                if ok then
                  assoc_upsert (CACHE_PREFIX +:+ "d")
                    (JSON.stringify (mkEntry "data:,d" 41 (str_length "data:,d"))) its2
                else its2;
              accepts := accepts world_full;
              setItem_log :=
                setItem_log world_full
                ++ [(CACHE_PREFIX +:+ "d",
                     JSON.stringify (mkEntry "data:,d" 40 (str_length "data:,d")), false);
                    (CACHE_PREFIX +:+ "d",
                     JSON.stringify (mkEntry "data:,d" 41 (str_length "data:,d")), ok)] |},
           Normal tt).
Proof.
  assert (Hwf : well_formed (items world_full)) by well_formed_by_computation.
  assert (Hrej : accepts world_full (items (cleanupIfNeeded world_full).1)
                   (CACHE_PREFIX +:+ "d")
                   (JSON.stringify (mkEntry "data:,d" 40 (str_length "data:,d")))
                 = false) by (vm_compute; reflexivity).
  split; [exact Hwf|]. split; [exact Hrej|].
  destruct (write_failure_retries_once_on_entries world_full "d" "data:,d" 40 41 Hwf Hrej)
    as (removed & kept & _ & Hlen & _ & _ & Hset).
  exists removed. split; [|exact Hset].
  rewrite Hlen. vm_compute. reflexivity.
Defined.

(** The same call evaluated: the three entries are removed, and the retry,
    the second and last write attempt, stores the entry. *)
Example set_on_full_storage :
  set "d" "data:,d" 40 41 world_full
  = ({| items := [("thumbnail_d"%string, JSON.stringify (mkEntry "data:,d" 41 7))];
        accepts := limit_pairs 3;
        setItem_log :=
          [("thumbnail_d"%string, JSON.stringify (mkEntry "data:,d" 40 7), false);
           ("thumbnail_d"%string, JSON.stringify (mkEntry "data:,d" 41 7), true)] |},
     Normal tt).
Proof. vm_compute. reflexivity. Qed.

(** C5, where the code departs from it. On a full storage that begins with
    two unparsable values, followed by the entry "old" and the younger entries
    "e1" to "e11", the write of [set] is rejected, the retry is made once and
    is rejected too, and [set] completes normally; but the eviction in between
    removes "e1" to "e10" and keeps "old", the oldest entry of the cache. The
    enumeration of [cleanup] deletes the unparsable key at index 0 and then
    skips the pair that moves into that index, which is "old". *)
Theorem C5_retry_eviction_keeps_oldest_entry :
  (cache_entries (items world_two_unparsable)).*1
  = "thumbnail_old"%string :: ((fun i => CACHE_PREFIX +:+ "e" +:+ pretty i) <$> seq 1 11)
  ∧ Forall (fun x => 1 < timestamp x.2)
      (filter (fun x => x.1 ≠ "thumbnail_old"%string)
         (cache_entries (items world_two_unparsable)))
  ∧ set "new" "data:,new" 100 101 world_two_unparsable
    = ({| items :=
            [("thumbnail_old"%string, JSON.stringify (mkEntry "data:,old" 1 9));
             ("thumbnail_e11"%string, JSON.stringify (mkEntry "data:,e" 12 7))];
          accepts := reject_all;
          setItem_log :=
            [("thumbnail_new"%string, JSON.stringify (mkEntry "data:,new" 100 9), false);
             ("thumbnail_new"%string, JSON.stringify (mkEntry "data:,new" 101 9), false)] |},
       Normal tt).
Proof.
  split; [vm_compute; reflexivity|]. split; [|vm_compute; reflexivity].
  apply (bool_decide_unpack _). vm_compute. exact I.
Qed.

(** ** Completions of the public operations *)

Section Completions.

Implicit Types (w : World).

Lemma try_catch_ret {A} (m : JS A) (a : A) w :
  ∃ r, (try_catch m (fun _ => ret a) w).2 = Normal r.
Proof.
  unfold try_catch, ret. destruct (m w) as [w' [r|e]]; simpl; eauto.
Qed.

Lemma cleanup_normal (count : Z) w : (cleanup count w).2 = Normal tt.
Proof.
  destruct (try_catch_ret
              (entries <- getAllEntries ;;
               sorted <- Array_sort by_timestamp entries ;;
               Array_forEach (fun x => localStorage.removeItem (fst x))
                 (Array_slice0 (Z.min count (Z.of_nat (List.length sorted))) sorted))
              tt w) as [[] Hr].
  exact Hr.
Qed.

Lemma set_normal (modelId dataUrl : string) (now retryNow : Z) w :
  (set modelId dataUrl now retryNow w).2 = Normal tt.
Proof.
  unfold set, try_catch at 1.
  destruct (bind cleanupIfNeeded _ w) as [w1 [[]|e]]; [done|].
  unfold bind. pose proof (cleanup_normal 10 w1) as Hc.
  destruct (cleanup 10 w1) as [w2 c]. simpl in Hc. subst c.
  by destruct (try_catch_ret (localStorage.setItem (CACHE_PREFIX +:+ modelId)
       (JSON.stringify
          {| dataUrl := dataUrl; timestamp := retryNow; size := str_length dataUrl |}))
       tt w2) as [[] Hr].
Qed.

Lemma get_normal (modelId : string) (now : Z) w :
  ∃ r, (get modelId now w).2 = Normal r.
Proof. apply try_catch_ret. Qed.

Lemma remove_normal (modelId : string) w : (remove modelId w).2 = Normal tt.
Proof. by destruct (try_catch_ret (localStorage.removeItem (CACHE_PREFIX +:+ modelId)) tt w) as [[] Hr]. Qed.

Lemma clear_normal w : (clear w).2 = Normal tt.
Proof.
  by destruct (try_catch_ret
                 (entries <- getAllEntries ;;
                  Array_forEach (fun x => localStorage.removeItem (fst x)) entries)
                 tt w) as [[] Hr].
Qed.

Lemma has_get (modelId : string) (now : Z) w :
  ∃ r, get modelId now w = ((get modelId now w).1, Normal r)
       ∧ has modelId now w
         = ((get modelId now w).1, Normal (match r with JsNull => false | _ => true end)).
Proof.
  destruct (get_normal modelId now w) as [r Hr]. exists r.
  unfold has, bind, ret. destruct (get modelId now w) as [w' c].
  simpl in Hr. by subst c.
Qed.

(** What [get] does when the storage holds an entry under the key. *)
Lemma get_entry (modelId : string) (now : Z) w (e : CacheEntry) :
  assoc_lookup (CACHE_PREFIX +:+ modelId) (items w) = Some (TJson (JEntry e)) →
  get modelId now w
  = if now - timestamp e >? maxAge
    then (with_items w (assoc_remove (CACHE_PREFIX +:+ modelId) (items w)), Normal JsNull)
    else (w, Normal (JsString (dataUrl e))).
Proof.
  intros Hl. unfold get, try_catch, bind at 1, localStorage.getItem. rewrite Hl.
  js_unfold. simpl. by destruct (now - timestamp e >? maxAge).
Qed.

(** [set] always ends with a call of [setItem] for the key: the first attempt
    when it is reached and taken, the retry otherwise. *)
Lemma set_ends_with_setItem (modelId dataUrl : string) (now retryNow : Z) w :
  ∃ (w' : World) (t : Z),
    (set modelId dataUrl now retryNow w).1
    = (localStorage.setItem (CACHE_PREFIX +:+ modelId)
         (JSON.stringify
            {| dataUrl := dataUrl; timestamp := t; size := str_length dataUrl |}) w').1.
Proof.
  unfold set, try_catch at 1, bind at 1.
  assert (Hretry : ∀ w1,
    ∃ w', ((cleanup 10 ;;
            try_catch
              (localStorage.setItem (CACHE_PREFIX +:+ modelId)
                 (JSON.stringify
                    {| dataUrl := dataUrl; timestamp := retryNow;
                       size := str_length dataUrl |}))
              (fun _ => ret tt)) w1).1
          = (localStorage.setItem (CACHE_PREFIX +:+ modelId)
               (JSON.stringify
                  {| dataUrl := dataUrl; timestamp := retryNow;
                     size := str_length dataUrl |}) w').1).
  { intros w1. unfold bind. pose proof (cleanup_normal 10 w1) as Hc.
    destruct (cleanup 10 w1) as [w2 c]. simpl in Hc. subst c.
    exists w2. unfold try_catch, ret.
    by destruct (localStorage.setItem _ _ w2) as [w3 [[]|e]]. }
  destruct (cleanupIfNeeded w) as [w1 [[]|e]].
  - destruct (localStorage.setItem _ _ w1) as [w2 [[]|e]] eqn:Hset.
    + exists w1, now. by rewrite Hset.
    + destruct (Hretry w2) as [w' Hw']. by exists w', retryNow.
  - destruct (Hretry w1) as [w' Hw']. by exists w', retryNow.
Qed.

Lemma setItem_stored (k : string) (v : Stored) w :
  let w' := (localStorage.setItem k v w).1 in
  ∃ b : bool,
    last (setItem_log w') = Some (k, v, b)
    ∧ (b = true → assoc_lookup k (items w') = Some v).
Proof.
  unfold localStorage.setItem. destruct (accepts w (items w) k v); simpl.
  - exists true. rewrite last_snoc. split; [done|]. intros _. apply assoc_lookup_upsert.
  - exists false. by rewrite last_snoc.
Qed.

End Completions.

(** ** Expiry *)

Section Expiry.

Implicit Types (w : World).

(** C2, as the code has it. Let [set] store the entry at clock reading [T]
    (its last [setItem] call wrote the entry stamped [T] and was taken). A
    [get] for the id returns the payload and leaves the storage alone at every
    read time up to and including [T + 7 days]; at every read time after
    [T + 7 days] it returns [null] and the key is gone from the storage. *)
Theorem C2_ttl_expiry (modelId dataUrl : string) (now retryNow T read : Z) w :
  let key := CACHE_PREFIX +:+ modelId in
  let w1 := (set modelId dataUrl now retryNow w).1 in
  last (setItem_log w1)
  = Some (key,
          JSON.stringify {| dataUrl := dataUrl; timestamp := T; size := str_length dataUrl |},
          true) →
  (read <= T + 7 * 24 * 60 * 60 * 1000 →
   get modelId read w1 = (w1, Normal (JsString dataUrl)))
  ∧ (read > T + 7 * 24 * 60 * 60 * 1000 →
     (get modelId read w1).2 = Normal JsNull
     ∧ assoc_lookup key (items (get modelId read w1).1) = None).
Proof.
  intros key w1 Hlast.
  assert (Hstored : assoc_lookup key (items w1)
                    = Some (TJson (JEntry {| dataUrl := dataUrl; timestamp := T;
                                             size := str_length dataUrl |}))).
  { destruct (set_ends_with_setItem modelId dataUrl now retryNow w) as (w' & t & Hw1).
    fold w1 key in Hw1.
    destruct (setItem_stored key
                (JSON.stringify {| dataUrl := dataUrl; timestamp := t;
                                   size := str_length dataUrl |}) w')
      as (b & Hb & Hlook).
    rewrite <- Hw1 in Hb, Hlook. rewrite Hlast in Hb.
    injection Hb as Ht Hb. rewrite <- Ht in Hlook. by apply Hlook. }
  pose proof (get_entry modelId read w1 _ Hstored) as Hget. simpl in Hget.
  unfold maxAge in Hget. split; intros Hread.
  - destruct (Z.gtb_spec (read - T) (7 * 24 * 60 * 60 * 1000)); [lia|done].
  - destruct (Z.gtb_spec (read - T) (7 * 24 * 60 * 60 * 1000)); [|lia].
    rewrite Hget. split; [done|]. apply assoc_lookup_remove.
Qed.

(** C6, what [get] does on an unparsable value: it returns [null], and the
    storage, the offending key included, is exactly as before. *)
Theorem C6_get_keeps_unparsable_value (modelId : string) (now : Z) w :
  assoc_lookup (CACHE_PREFIX +:+ modelId) (items w) = Some TGarbage →
  get modelId now w = (w, Normal JsNull).
Proof.
  intros Hl. unfold get, try_catch, bind, localStorage.getItem. by rewrite Hl.
Qed.

(** [has] leaves the storage as [get] does and answers [true] exactly when
    [get] returns something else than [null]; on an entry whose age exceeds
    7 days it answers [false] and the key is gone from the storage. *)
Lemma has_follows_get (modelId : string) (now : Z) w :
  (∃ r : JsValue,
     get modelId now w = ((get modelId now w).1, Normal r)
     ∧ has modelId now w = ((get modelId now w).1, Normal (bool_decide (r ≠ JsNull))))
  ∧ (∀ e : CacheEntry,
       assoc_lookup (CACHE_PREFIX +:+ modelId) (items w) = Some (TJson (JEntry e)) →
       now - timestamp e > 7 * 24 * 60 * 60 * 1000 →
       (has modelId now w).2 = Normal false
       ∧ assoc_lookup (CACHE_PREFIX +:+ modelId) (items (has modelId now w).1) = None).
Proof.
  split.
  - destruct (has_get modelId now w) as (r & Hget & Hhas). exists r.
    split; [done|]. rewrite Hhas. by destruct r.
  - intros e Hl Hold.
    destruct (has_get modelId now w) as (r & Hget & Hhas).
    rewrite Hhas. rewrite (get_entry _ _ _ _ Hl) in Hget |- *.
    unfold maxAge in *.
    destruct (Z.gtb_spec (now - timestamp e) (7 * 24 * 60 * 60 * 1000)); [|lia].
    simpl in *. injection Hget as <-. split; [done|]. apply assoc_lookup_remove.
Qed.

(** What [get] does when the storage holds another parsed value under the
    key. *)
Lemma get_other (modelId : string) (now : Z) w (d : JsValue) (t s : JsNumber) :
  assoc_lookup (CACHE_PREFIX +:+ modelId) (items w) = Some (TJson (JOther d t s)) →
  get modelId now w
  = if number_gt (number_sub (Num now) t) maxAge
    then (with_items w (assoc_remove (CACHE_PREFIX +:+ modelId) (items w)), Normal JsNull)
    else (w, Normal d).
Proof.
  intros Hl. unfold get, try_catch, bind at 1, localStorage.getItem. rewrite Hl.
  js_unfold. destruct t as [t|]; simpl; [|done].
  by destruct (now - t >? maxAge).
Qed.

(** C10, where the code departs from it. When the value stored under the key
    parses to something that has no [dataUrl] and is not expired by the test
    of [get] (its [timestamp] is not a number, or is recent), [get] returns
    [undefined], which is no payload, and [has] answers [true], because
    [undefined !== null]; the storage is left as it is. *)
Theorem C10_has_true_without_payload (modelId : string) (now : Z) w (t s : JsNumber) :
  assoc_lookup (CACHE_PREFIX +:+ modelId) (items w) = Some (TJson (JOther JsUndefined t s)) →
  number_gt (number_sub (Num now) t) maxAge = false →
  get modelId now w = (w, Normal JsUndefined)
  ∧ has modelId now w = (w, Normal true).
Proof.
  intros Hl Hfresh.
  assert (Hget : get modelId now w = (w, Normal JsUndefined))
    by (by rewrite (get_other _ _ _ _ _ _ Hl), Hfresh).
  split; [exact Hget|]. unfold has, bind. by rewrite Hget.
Qed.

End Expiry.

Lemma C2_ttl_expiry_witness :
  last (setItem_log (set "a" "data:,a" 1000 1000 empty_world).1)
  = Some (CACHE_PREFIX +:+ "a", JSON.stringify (mkEntry "data:,a" 1000 (str_length "data:,a")),
          true)
  ∧ get "a" 604801000 world_one_entry = (world_one_entry, Normal (JsString "data:,a"))
  ∧ (get "a" 604801001 world_one_entry).2 = Normal JsNull.
Proof.
  assert (Hlast : last (setItem_log (set "a" "data:,a" 1000 1000 empty_world).1)
                  = Some (CACHE_PREFIX +:+ "a",
                          JSON.stringify (mkEntry "data:,a" 1000 (str_length "data:,a")),
                          true)) by (vm_compute; reflexivity).
  split; [exact Hlast|]. split.
  - apply (C2_ttl_expiry "a" "data:,a" 1000 1000 1000 604801000 empty_world Hlast).
    vm_compute. discriminate.
  - apply (C2_ttl_expiry "a" "data:,a" 1000 1000 1000 604801001 empty_world Hlast).
    vm_compute. reflexivity.
Defined.

(** C2 as stated puts the boundary one millisecond early: an entry written at
    [T = 1000] is still returned, and still stored, by a read at exactly
    [T + 7 days]. *)
Lemma C2_read_at_seven_days_returns_payload :
  1000 + 7 * 24 * 60 * 60 * 1000 >= 1000 + 7 * 24 * 60 * 60 * 1000
  ∧ (get "a" (1000 + 7 * 24 * 60 * 60 * 1000) world_one_entry).2
    = Normal (JsString "data:,a")
  ∧ assoc_lookup (CACHE_PREFIX +:+ "a")
      (items (get "a" (1000 + 7 * 24 * 60 * 60 * 1000) world_one_entry).1)
    ≠ None.
Proof. vm_compute. split; [discriminate|]. split; [reflexivity|discriminate]. Qed.

Lemma C6_get_keeps_unparsable_value_witness :
  assoc_lookup (CACHE_PREFIX +:+ "a") (items world_garbage) = Some TGarbage
  ∧ get "a" 0 world_garbage = (world_garbage, Normal JsNull)
  ∧ assoc_lookup (CACHE_PREFIX +:+ "a") (items (get "a" 0 world_garbage).1) = Some TGarbage.
Proof.
  assert (Hl : assoc_lookup (CACHE_PREFIX +:+ "a") (items world_garbage) = Some TGarbage)
    by reflexivity.
  pose proof (C6_get_keeps_unparsable_value "a" 0 world_garbage Hl) as Hget.
  split; [exact Hl|]. split; [exact Hget|]. rewrite Hget. exact Hl.
Defined.

(** The enumeration on the same storage: [getStats] does not count the
    unparsable value and deletes its key. *)
Example enumeration_deletes_unparsable_value :
  getStats world_garbage
  = ({| items := []; accepts := accept_all; setItem_log := [] |}, Normal (0, Num 0)).
Proof. reflexivity. Qed.

Lemma C10_has_true_without_payload_witness :
  assoc_lookup (CACHE_PREFIX +:+ "x") (items world_empty_object)
  = Some (TJson (JOther JsUndefined NaN NaN))
  ∧ number_gt (number_sub (Num 1000) NaN) maxAge = false
  ∧ get "x" 1000 world_empty_object = (world_empty_object, Normal JsUndefined)
  ∧ has "x" 1000 world_empty_object = (world_empty_object, Normal true).
Proof.
  assert (Hl : assoc_lookup (CACHE_PREFIX +:+ "x") (items world_empty_object)
               = Some (TJson (JOther JsUndefined NaN NaN))) by reflexivity.
  assert (Hfresh : number_gt (number_sub (Num 1000) NaN) maxAge = false) by reflexivity.
  split; [exact Hl|]. split; [exact Hfresh|].
  exact (C10_has_true_without_payload "x" 1000 world_empty_object NaN NaN Hl Hfresh).
Defined.

(** ** The capacity limits *)

Section Capacity.

Implicit Types (w : World) (its : list (string * Stored)).

Lemma prefix_app (s t : string) : String.prefix s (s +:+ t) = true.
Proof.
  induction s as [|a s IH]; simpl; [by destruct t|].
  by destruct (Ascii.ascii_dec a a).
Qed.

Lemma sum_sizes_app (es1 es2 : list (string * CacheEntry)) :
  sum_sizes (es1 ++ es2) = sum_sizes es1 + sum_sizes es2.
Proof.
  unfold sum_sizes. induction es1 as [|x es1 IH]; simpl; [done|]. rewrite IH. lia.
Qed.

Lemma sum_sizes_const (c : Z) (es : list (string * CacheEntry)) :
  Forall (fun x => size x.2 = c) es → sum_sizes es = c * Z.of_nat (List.length es).
Proof.
  unfold sum_sizes. induction 1 as [|x es Hx Hes IH]; simpl; [lia|].
  rewrite IH, Hx. lia.
Qed.

Lemma getStats_well_formed w :
  well_formed (items w) →
  getStats w
  = (w, Normal (Z.of_nat (List.length (cache_entries (items w))),
                Num (sum_sizes (cache_entries (items w))))).
Proof.
  intros Hwf. unfold getStats, bind.
  rewrite getAllEntries_well_formed by done.
  by rewrite total_size_well_formed, length_fmap.
Qed.

Lemma well_formed_snoc its (modelId : string) (e : CacheEntry) :
  well_formed its →
  assoc_lookup (CACHE_PREFIX +:+ modelId) its = None →
  well_formed (its ++ [(CACHE_PREFIX +:+ modelId, TJson (JEntry e))])
  ∧ cache_entries (its ++ [(CACHE_PREFIX +:+ modelId, TJson (JEntry e))])
    = cache_entries its ++ [(CACHE_PREFIX +:+ modelId, e)].
Proof.
  intros [Hnd Hok] Hfresh. split; [split|].
  - rewrite fmap_app. apply NoDup_app. split; [done|]. split.
    + intros k Hk [->|[]%elem_of_nil]%elem_of_cons.
      by apply assoc_lookup_None in Hfresh.
    + apply NoDup_singleton.
  - rewrite forallb_app, Hok. simpl. unfold entry_ok. simpl.
    by rewrite prefix_app.
  - unfold cache_entries. rewrite omap_app. f_equal. simpl.
    unfold entry_of. simpl. by rewrite prefix_app.
Qed.

(** C7, evaluated on the code. The storage is well formed and holds exactly
    100 live entries, each of recorded size 0.5 MiB (524288), so the total is
    exactly 50 MiB. A [set] for an id that is not yet cached, whose write the
    storage takes, evicts nothing: the storage is the old one with the new
    entry appended, and [getStats] then reports 101 entries and more than
    50 MiB. The eviction test of [cleanupIfNeeded] runs before the write and
    is strict, so a cache exactly at its limits passes it. *)
Theorem C7_insert_at_capacity_evicts_nothing w (modelId dataUrl : string)
  (now retryNow : Z) :
  well_formed (items w) →
  List.length (cache_entries (items w)) = 100%nat →
  Forall (fun x => size x.2 = 524288) (cache_entries (items w)) →
  let key := CACHE_PREFIX +:+ modelId in
  let text :=
    JSON.stringify {| dataUrl := dataUrl; timestamp := now; size := str_length dataUrl |} in
  assoc_lookup key (items w) = None →
  accepts w (items w) key text = true →
  let w' := (set modelId dataUrl now retryNow w).1 in
  items w' = items w ++ [(key, text)]
  ∧ (getStats w').2 = Normal (101, Num (50 * 1024 * 1024 + str_length dataUrl)).
Proof.
  intros Hwf Hlen Hsizes key text Hfresh Hacc.
  assert (Hcl : cleanupIfNeeded w = (w, Normal tt)).
  { rewrite cleanupIfNeeded_well_formed by done.
    rewrite (sum_sizes_const _ _ Hsizes), Hlen. reflexivity. }
  assert (Hset : set modelId dataUrl now retryNow w
                 = ({| items := items w ++ [(key, text)];
                       accepts := accepts w;
                       setItem_log := setItem_log w ++ [(key, text, true)] |},
                    Normal tt)).
  { unfold set, try_catch, bind. rewrite Hcl.
    unfold localStorage.setItem. fold key text. rewrite Hacc.
    by rewrite assoc_upsert_fresh. }
  intros w'. subst w'. rewrite Hset. simpl. split; [done|].
  destruct (well_formed_snoc (items w) modelId
              {| dataUrl := dataUrl; timestamp := now; size := str_length dataUrl |}
              Hwf Hfresh) as [Hwf' Hentries].
  rewrite getStats_well_formed by done.
  cbn [items snd]. unfold key, text, JSON.stringify. rewrite Hentries.
  rewrite length_app, sum_sizes_app, (sum_sizes_const _ _ Hsizes), Hlen.
  unfold sum_sizes. simpl. repeat f_equal; lia.
Qed.

End Capacity.

Lemma C7_insert_at_capacity_evicts_nothing_witness :
  well_formed (items world_at_capacity)
  ∧ List.length (cache_entries (items world_at_capacity)) = 100%nat
  ∧ Forall (fun x => size x.2 = 524288) (cache_entries (items world_at_capacity))
  ∧ assoc_lookup (CACHE_PREFIX +:+ "new") (items world_at_capacity) = None
  ∧ (getStats world_at_capacity).2 = Normal (100, Num (50 * 1024 * 1024))
  ∧ (getStats (set "new" "data:,new" 100 100 world_at_capacity).1).2
    = Normal (101, Num (50 * 1024 * 1024 + str_length "data:,new")).
Proof.
  assert (Hwf : well_formed (items world_at_capacity)) by well_formed_by_computation.
  assert (Hlen : List.length (cache_entries (items world_at_capacity)) = 100%nat)
    by (vm_compute; reflexivity).
  assert (Hsizes : Forall (fun x => size x.2 = 524288)
                     (cache_entries (items world_at_capacity))).
  { apply (bool_decide_unpack _). vm_compute. exact I. }
  assert (Hfresh : assoc_lookup (CACHE_PREFIX +:+ "new") (items world_at_capacity) = None)
    by (vm_compute; reflexivity).
  split; [exact Hwf|]. split; [exact Hlen|]. split; [exact Hsizes|].
  split; [exact Hfresh|]. split; [vm_compute; reflexivity|].
  exact (proj2 (C7_insert_at_capacity_evicts_nothing world_at_capacity
                  "new" "data:,new" 100 100 Hwf Hlen Hsizes Hfresh eq_refl)).
Defined.

(** C1, evaluated on the code. After 101 calls of [set] with distinct ids on
    an empty storage without quota, [getStats] counts 101 entries; and after a
    single call on the empty storage the total recorded size is the length of
    the payload, whatever that length is. The test of [cleanupIfNeeded] looks
    at the cache before the new entry is written and never at the new entry. *)
Theorem C1_limits_exceeded_after_set :
  (getStats (run_sets (distinct_calls 101 "data:,") empty_world)).2 = Normal (101, Num 606)
  ∧ ∀ dataUrl : string,
      (getStats (run_sets [mkSetCall "a" dataUrl 0] empty_world)).2
      = Normal (1, Num (str_length dataUrl)).
Proof.
  split; [vm_compute; reflexivity|].
  intros dataUrl. unfold run_sets, run_set. simpl.
  unfold getStats, bind, getAllEntries. simpl. reflexivity.
Qed.

(** C9, evaluated on the code: [getStats] has no [try], and the [TypeError] of
    reading [entry.size] on [null] reaches its caller. *)
Theorem C9_getStats_throws :
  getStats world_null = (world_null, Throw TypeError).
Proof. reflexivity. Qed.

(** The operations that run inside a [try] complete normally in every state. *)
Lemma guarded_operations_complete_normally (w : World) (modelId dataUrl : string)
  (now retryNow count : Z) :
  (set modelId dataUrl now retryNow w).2 = Normal tt
  ∧ (∃ r, (get modelId now w).2 = Normal r)
  ∧ (remove modelId w).2 = Normal tt
  ∧ (clear w).2 = Normal tt
  ∧ (cleanup count w).2 = Normal tt
  ∧ (∃ b, (has modelId now w).2 = Normal b).
Proof.
  split_and!.
  - apply set_normal.
  - apply get_normal.
  - apply remove_normal.
  - apply clear_normal.
  - apply cleanup_normal.
  - destruct (has_get modelId now w) as (r & _ & ->). eauto.
Qed.

(** ** The enumeration loop has enough fuel *)

Section Fuel.

Implicit Types (w : World).

Lemma assoc_remove_length (k : string) (its : list (string * Stored)) :
  (List.length (assoc_remove k its) ≤ List.length its)%nat.
Proof.
  induction its as [|[k' v'] its IH]; simpl; [done|].
  destruct (String.eqb k k'); simpl; lia.
Qed.

(** The loop is started with as many rounds as the storage has keys; further
    rounds would change nothing, in any state of the storage. *)
Lemma getAllEntries_loop_fuel (fuel extra i : nat) acc w :
  (List.length (items w) ≤ i + fuel)%nat →
  getAllEntries_loop (fuel + extra) i acc w = getAllEntries_loop fuel i acc w.
Proof.
  revert i acc w. induction fuel as [|fuel IH]; intros i acc w Hlen.
  - destruct extra as [|extra]; [done|]. simpl. js_unfold.
    destruct (Nat.ltb_spec i (List.length (items w))); [lia|done].
  - simpl. js_unfold.
    destruct (Nat.ltb_spec i (List.length (items w))); [|done].
    destruct (items w !! i) as [[k v]|]; simpl; [|apply IH; lia].
    destruct (String.prefix CACHE_PREFIX k); [|apply IH; lia].
    destruct (assoc_lookup k (items w)) as [[| |[|e|d0 t0 s0]]|]; simpl;
      try (apply IH; lia).
    apply IH. simpl. pose proof (assoc_remove_length k (items w)). lia.
Qed.

End Fuel.

(** ** Rounding to binary64 *)

Section Binary64.

Local Open Scope Q_scope.

(** Rounding to the nearest integer moves a number by at most one half. *)
Lemma round_half_even_error (y : Q) :
  - (1 # 2) <= inject_Z (round_half_even y) - y <= 1 # 2.
Proof.
  unfold round_half_even.
  pose proof (Qfloor_le y) as Hlo. pose proof (Qlt_floor y) as Hhi.
  rewrite inject_Z_plus in Hhi. change (inject_Z 1) with 1 in Hhi.
  destruct (y - inject_Z (Qfloor y) ?= 1 # 2) eqn:Hc.
  - apply Qeq_alt in Hc. destruct (Z.even (Qfloor y)).
    + generalize dependent (inject_Z (Qfloor y)). intros f ? ? ?. lra.
    + rewrite inject_Z_plus. change (inject_Z 1) with 1.
      generalize dependent (inject_Z (Qfloor y)). intros f ? ? ?. lra.
  - apply Qlt_alt in Hc.
    generalize dependent (inject_Z (Qfloor y)). intros f ? ? ?. lra.
  - apply Qgt_alt in Hc. rewrite inject_Z_plus. change (inject_Z 1) with 1.
    generalize dependent (inject_Z (Qfloor y)). intros f ? ? ?. lra.
Qed.

Lemma pow2_pos (e : Z) : 0 < 2 ^ e.
Proof. by apply Qpower_0_lt. Qed.

(** [ilog2 x] is the binary exponent of [x]: [2 ^ e <= x < 2 ^ (e + 1)]. *)
Lemma ilog2_le (x : Q) : 0 < x → 2 ^ ilog2 x <= x.
Proof.
  intros Hx. unfold ilog2.
  destruct (Qle_bool _ x) eqn:Hb; [by apply Qle_bool_iff|].
  destruct x as [n d]. cbn [Qnum Qden] in *.
  assert (Hn : (0 < n)%Z) by (unfold Qlt in Hx; simpl in Hx; lia).
  replace (Z.log2 n - Z.log2 (Z.pos d) - 1)%Z
    with (Z.log2 n - (Z.log2 (Z.pos d) + 1))%Z by lia.
  rewrite Qpower_minus by done.
  pose proof (Z.log2_nonneg n) as Hln. pose proof (Z.log2_nonneg (Z.pos d)) as Hld.
  assert (Ha : 2 ^ Z.log2 n == inject_Z (2 ^ Z.log2 n))
    by (symmetry; apply (Zpower_Qpower 2); lia).
  assert (Hb' : 2 ^ (Z.log2 (Z.pos d) + 1) == inject_Z (2 ^ (Z.log2 (Z.pos d) + 1)))
    by (symmetry; apply (Zpower_Qpower 2); lia).
  rewrite Ha, Hb'. clear Ha Hb'.
  pose proof (Z.log2_spec n Hn) as [Hn1 _].
  pose proof (Z.log2_spec (Z.pos d) eq_refl) as [_ Hd2].
  replace (Z.succ (Z.log2 (Z.pos d))) with (Z.log2 (Z.pos d) + 1)%Z in Hd2 by lia.
  set (a := (2 ^ Z.log2 n)%Z) in *. set (b := (2 ^ (Z.log2 (Z.pos d) + 1))%Z) in *.
  assert (Hb0 : (0 < b)%Z) by lia.
  apply Qle_shift_div_r; [unfold Qlt; simpl; lia|].
  unfold Qle, Qmult, inject_Z. cbn [Qnum Qden]. nia.
Qed.

Lemma ilog2_lt (x : Q) : 0 < x → x < 2 ^ (ilog2 x + 1).
Proof.
  intros Hx. unfold ilog2.
  destruct (Qle_bool _ x) eqn:Hb.
  - destruct x as [n d]. cbn [Qnum Qden] in *.
    assert (Hn : (0 < n)%Z) by (unfold Qlt in Hx; simpl in Hx; lia).
    replace (Z.log2 n - Z.log2 (Z.pos d) + 1)%Z
      with (Z.log2 n + 1 - Z.log2 (Z.pos d))%Z by lia.
    rewrite Qpower_minus by done.
    pose proof (Z.log2_nonneg n) as Hln. pose proof (Z.log2_nonneg (Z.pos d)) as Hld.
    assert (Ha : 2 ^ (Z.log2 n + 1) == inject_Z (2 ^ (Z.log2 n + 1)))
      by (symmetry; apply (Zpower_Qpower 2); lia).
    assert (Hb' : 2 ^ Z.log2 (Z.pos d) == inject_Z (2 ^ Z.log2 (Z.pos d)))
      by (symmetry; apply (Zpower_Qpower 2); lia).
    rewrite Ha, Hb'. clear Ha Hb'.
    pose proof (Z.log2_spec n Hn) as [_ Hn2].
    pose proof (Z.log2_spec (Z.pos d) eq_refl) as [Hd1 _].
    replace (Z.succ (Z.log2 n)) with (Z.log2 n + 1)%Z in Hn2 by lia.
    set (a := (2 ^ (Z.log2 n + 1))%Z) in *. set (b := (2 ^ Z.log2 (Z.pos d))%Z) in *.
    assert (Hb0 : (0 < b)%Z) by (unfold b; apply Z.pow_pos_nonneg; lia).
    apply Qlt_shift_div_l; [unfold Qlt; simpl; lia|].
    unfold Qlt, Qmult, inject_Z. cbn [Qnum Qden]. nia.
  - replace (Z.log2 (Qnum x) - Z.log2 (Z.pos (Qden x)) - 1 + 1)%Z
      with (Z.log2 (Qnum x) - Z.log2 (Z.pos (Qden x)))%Z by lia.
    apply Qnot_le_lt. intros Hle. apply Qle_bool_iff in Hle. congruence.
Qed.

(** One rounding changes a positive number by at most half a unit in its last
    place, which is at most [unit_roundoff] times the number. *)
Lemma binary64_error_pos (x : Q) :
  0 < x → - (unit_roundoff * x) <= binary64 x - x <= unit_roundoff * x.
Proof.
  intros Hx. unfold binary64.
  destruct (x ?= 0) eqn:Hc;
    [apply Qeq_alt in Hc; lra| apply Qlt_alt in Hc; lra|]. clear Hc.
  set (ulp := 2 ^ (ilog2 x - 52)).
  assert (Hulp : 0 < ulp) by apply pow2_pos.
  pose proof (round_half_even_error (x / ulp)) as Hr.
  set (n := inject_Z (round_half_even (x / ulp))) in *.
  assert (Hx' : x == x / ulp * ulp) by (field; lra).
  assert (Hhalf : ulp * (1 # 2) <= unit_roundoff * x).
  { pose proof (ilog2_le x Hx) as Hle.
    assert (Hsplit : 2 ^ ilog2 x == ulp * 2 ^ 52).
    { unfold ulp. rewrite <- Qpower_plus by done.
      by replace (ilog2 x - 52 + 52)%Z with (ilog2 x) by lia. }
    rewrite Hsplit in Hle.
    assert (H52 : 2 ^ 52 == 4503599627370496) by reflexivity.
    rewrite H52 in Hle. unfold unit_roundoff.
    clear -Hle Hulp. clearbody ulp. lra. }
  assert (Hd : n * ulp - x == (n - x / ulp) * ulp) by (rewrite Hx' at 1; ring).
  rewrite Hd.
  assert (H1 : (n - x / ulp) * ulp <= (1 # 2) * ulp)
    by (apply Qmult_le_compat_r; lra).
  assert (H2 : - (1 # 2) * ulp <= (n - x / ulp) * ulp)
    by (apply Qmult_le_compat_r; lra).
  lra.
Qed.

Lemma binary64_bounds_pos (x : Q) :
  0 < x → (1 - unit_roundoff) * x <= binary64 x <= (1 + unit_roundoff) * x.
Proof. intros Hx. pose proof (binary64_error_pos x Hx). lra. Qed.

Lemma binary64_pos (x : Q) : 0 < x → 0 < binary64 x.
Proof.
  intros Hx. pose proof (binary64_bounds_pos x Hx) as [Hlo _].
  unfold unit_roundoff in Hlo. lra.
Qed.

Lemma binary64_opp (x : Q) : x < 0 → binary64 x = - binary64 (- x).
Proof.
  intros Hx. unfold binary64.
  assert (H1 : (x ?= 0) = Lt) by by apply Qlt_alt.
  assert (H2 : (- x ?= 0) = Gt) by (apply Qgt_alt; lra).
  by rewrite H1, H2.
Qed.

Lemma binary64_0 (x : Q) : x == 0 → binary64 x = 0.
Proof. intros Hx. unfold binary64. apply Qeq_alt in Hx. by rewrite Hx. Qed.

Lemma binary64_bounds_neg (x : Q) :
  x < 0 → (1 + unit_roundoff) * x <= binary64 x <= (1 - unit_roundoff) * x.
Proof.
  intros Hx. rewrite (binary64_opp x Hx).
  pose proof (binary64_bounds_pos (- x) ltac:(lra)). lra.
Qed.

(** The relative error of one rounding, for every rational. *)
Lemma binary64_error (x : Q) : Qabs (binary64 x - x) <= unit_roundoff * Qabs x.
Proof.
  destruct (Q_dec x 0) as [[Hx|Hx]|Hx].
  - pose proof (binary64_bounds_neg x Hx). rewrite (Qabs_neg x) by lra.
    apply Qabs_Qle_condition. lra.
  - pose proof (binary64_bounds_pos x Hx). rewrite (Qabs_pos x) by lra.
    apply Qabs_Qle_condition. lra.
  - rewrite (binary64_0 x Hx), Hx. by vm_compute.
Qed.

End Binary64.

(** ** The 2D composition *)

Section Composition.

Local Open Scope Q_scope.

Import ThumbnailGenerator.

Lemma inject_Z_pos (n : Z) : (0 < n)%Z → 0 < inject_Z n.
Proof. intros H. unfold Qlt. simpl. lia. Qed.

(** The exact scale and the scale of the code. *)
Lemma scale_bounds (w h : Z) :
  (0 < w)%Z → (0 < h)%Z →
  let m := Qmin (400 / inject_Z w) (400 / inject_Z h) in
  0 < m ∧ (1 - unit_roundoff) * m <= scale w h <= (1 + unit_roundoff) * m.
Proof.
  intros Hw Hh m. apply inject_Z_pos in Hw, Hh.
  assert (Ha : 0 < 400 / inject_Z w) by (apply Qlt_shift_div_l; lra).
  assert (Hb : 0 < 400 / inject_Z h) by (apply Qlt_shift_div_l; lra).
  pose proof (binary64_bounds_pos _ Ha) as HA.
  pose proof (binary64_bounds_pos _ Hb) as HB.
  unfold scale, size, m.
  generalize dependent (binary64 (400 / inject_Z w)). intros A HA.
  generalize dependent (binary64 (400 / inject_Z h)). intros B HB.
  generalize dependent (400 / inject_Z w). intros a Ha HA.
  generalize dependent (400 / inject_Z h). intros b Hb HB.
  unfold unit_roundoff in *.
  destruct (Q.min_spec a b) as [[Hab ->]|[Hab ->]];
    destruct (Q.min_spec A B) as [[HAB ->]|[HAB ->]]; lra.
Qed.

(** Two roundings: the difference from 400 and its half. *)
Lemma offset_sandwich (d : Q) :
  let D := 400 - d in
  let x := binary64 (binary64 D / 2) in
  (0 <= D → (1 - 3 * unit_roundoff) * D <= 2 * x <= (1 + 3 * unit_roundoff) * D)
  ∧ (D <= 0 → (1 + 3 * unit_roundoff) * D <= 2 * x <= (1 - 3 * unit_roundoff) * D).
Proof.
  intros D x. subst x. generalize D. clear D d. intros D.
  assert (HE : binary64 D / 2 * 2 == binary64 D) by (field; lra).
  destruct (Q_dec D 0) as [[HD|HD]|HD].
  - split; [intros ?; lra|]. intros _.
    pose proof (binary64_bounds_neg D HD) as H1.
    assert (Hf : binary64 D / 2 < 0).
    { generalize dependent (binary64 D / 2). intros E HE.
      unfold unit_roundoff in H1. lra. }
    pose proof (binary64_bounds_neg _ Hf) as H2.
    generalize dependent (binary64 (binary64 D / 2)). intros x H2.
    generalize dependent (binary64 D / 2). intros E HE Hf H2.
    unfold unit_roundoff in *. lra.
  - split; [|intros ?; lra]. intros _.
    pose proof (binary64_bounds_pos D HD) as H1.
    assert (Hf : 0 < binary64 D / 2).
    { generalize dependent (binary64 D / 2). intros E HE.
      unfold unit_roundoff in H1. lra. }
    pose proof (binary64_bounds_pos _ Hf) as H2.
    generalize dependent (binary64 (binary64 D / 2)). intros x H2.
    generalize dependent (binary64 D / 2). intros E HE Hf H2.
    unfold unit_roundoff in *. lra.
  - rewrite (binary64_0 D HD).
    rewrite (binary64_0 (0 / 2)) by reflexivity.
    unfold unit_roundoff. split; intros _; lra.
Qed.

Lemma offset_error (d : Q) :
  Qabs (binary64 (binary64 (400 - d) / 2) - (400 - d) / 2)
  <= 3 * unit_roundoff * Qabs ((400 - d) / 2).
Proof.
  destruct (offset_sandwich d) as [Hpos Hneg].
  assert (HE : (400 - d) / 2 * 2 == 400 - d) by (field; lra).
  generalize dependent (binary64 (binary64 (400 - d) / 2)). intros x Hpos Hneg.
  destruct (Qlt_le_dec (400 - d) 0) as [HD|HD].
  - specialize (Hneg ltac:(lra)).
    generalize dependent ((400 - d) / 2). intros E HE.
    rewrite (Qabs_neg E) by lra.
    apply Qabs_Qle_condition. unfold unit_roundoff in *. lra.
  - specialize (Hpos HD).
    generalize dependent ((400 - d) / 2). intros E HE.
    rewrite (Qabs_pos E) by lra.
    apply Qabs_Qle_condition. unfold unit_roundoff in *. lra.
Qed.

(** One side of the drawn rectangle: the rounded product with the scale. *)
Lemma side_bounds (n : Z) (m s : Q) :
  (0 < n)%Z → 0 < m →
  (1 - unit_roundoff) * m <= s <= (1 + unit_roundoff) * m →
  let d := binary64 (inject_Z n * s) in
  0 < inject_Z n * s
  ∧ (1 - unit_roundoff) * (inject_Z n * s) <= d <= (1 + unit_roundoff) * (inject_Z n * s)
  ∧ (1 - unit_roundoff) * (inject_Z n * m) <= inject_Z n * s
     <= (1 + unit_roundoff) * (inject_Z n * m).
Proof.
  intros Hn Hm [Hlo Hhi] d. apply inject_Z_pos in Hn.
  assert (Hs : 0 < s) by (unfold unit_roundoff in *; lra).
  assert (HP : 0 < inject_Z n * s) by (apply Qmult_lt_0_compat; lra).
  assert (HW : 0 < inject_Z n * m) by (apply Qmult_lt_0_compat; lra).
  pose proof (binary64_bounds_pos _ HP) as Hd. fold d in Hd.
  assert (H1 : inject_Z n * ((1 - unit_roundoff) * m) <= inject_Z n * s)
    by (apply Qmult_le_l; lra).
  assert (H2 : inject_Z n * s <= inject_Z n * ((1 + unit_roundoff) * m))
    by (apply Qmult_le_l; lra).
  assert (E1 : inject_Z n * ((1 - unit_roundoff) * m)
               == (1 - unit_roundoff) * (inject_Z n * m)) by ring.
  assert (E2 : inject_Z n * ((1 + unit_roundoff) * m)
               == (1 + unit_roundoff) * (inject_Z n * m)) by ring.
  rewrite E1 in H1. rewrite E2 in H2. clear E1 E2.
  done.
Qed.

(** The offset of the code against the exact offset. *)
Lemma offset_close (W P d : Q) :
  0 < W <= 400 →
  (1 - unit_roundoff) * W <= P <= (1 + unit_roundoff) * W →
  (1 - unit_roundoff) * P <= d <= (1 + unit_roundoff) * P →
  Qabs (binary64 (binary64 (400 - d) / 2) - (400 - W) / 2) <= fit_slack.
Proof.
  intros HW HP Hd.
  destruct (offset_sandwich d) as [Hpos Hneg].
  assert (HE : (400 - W) / 2 * 2 == 400 - W) by (field; lra).
  generalize dependent (binary64 (binary64 (400 - d) / 2)). intros x Hpos Hneg.
  generalize dependent ((400 - W) / 2). intros E HE.
  apply Qabs_Qle_condition.
  destruct (Qlt_le_dec (400 - d) 0) as [HD|HD];
    [specialize (Hneg ltac:(lra))|specialize (Hpos HD)];
    unfold unit_roundoff, fit_slack in *; lra.
Qed.

(** The exact scale makes one side 400 and the other at most 400. *)
Lemma exact_fit (w h : Z) :
  (0 < w)%Z → (0 < h)%Z →
  let m := Qmin (400 / inject_Z w) (400 / inject_Z h) in
  inject_Z w * m <= 400 ∧ inject_Z h * m <= 400
  ∧ (inject_Z w * m == 400 ∨ inject_Z h * m == 400).
Proof.
  intros Hw Hh m. apply inject_Z_pos in Hw, Hh.
  assert (Ea : inject_Z w * (400 / inject_Z w) == 400) by (field; lra).
  assert (Eb : inject_Z h * (400 / inject_Z h) == 400) by (field; lra).
  unfold m. destruct (Q.min_spec (400 / inject_Z w) (400 / inject_Z h)) as [[Hab ->]|[Hab ->]].
  - split; [rewrite Ea; apply Qle_refl|]. split; [|by left].
    apply Qle_trans with (inject_Z h * (400 / inject_Z h));
      [|rewrite Eb; apply Qle_refl].
    apply Qmult_le_l; [done|]. by apply Qlt_le_weak.
  - split; [|split; [rewrite Eb; apply Qle_refl|by right]].
    apply Qle_trans with (inject_Z w * (400 / inject_Z w));
      [|rewrite Ea; apply Qle_refl].
    by apply Qmult_le_l.
Qed.

(** C8, as the code has it. For an image of [w] x [h] pixels the handler makes
    a 400 x 400 canvas filled with #f9fafb and draws the image with the values
    it computes in binary64. Each of them is within a few units of rounding of
    the exact value of the claim: the scale of [min(400/w, 400/h)], the drawn
    width and height of [w] and [h] times that scale, the two in the ratio
    [w : h], and the offsets of half the space that the drawn size leaves,
    which are within 2^-43 of the exact offsets. For 800 x 400 the values are
    exact: scale 1/2, offset (0, 100), size 400 x 200. *)
Theorem C8_scale_to_fit_and_center (w h : Z) :
  (0 < w < 2 ^ 53)%Z → (0 < h < 2 ^ 53)%Z →
  let c := onload w h in
  let m := Qmin (400 / inject_Z w) (400 / inject_Z h) in
  let s := scale w h in
  let x := (drawImage c).1.1.1 in
  let y := (drawImage c).1.1.2 in
  let dw := (drawImage c).1.2 in
  let dh := (drawImage c).2 in
  width c = 400 ∧ height c = 400
  ∧ fillStyle c = "#f9fafb"%string ∧ fillRect c = (0, 0, 400, 400)
  ∧ Qabs (s - m) <= unit_roundoff * m
  ∧ Qabs (dw - inject_Z w * s) <= unit_roundoff * (inject_Z w * s)
  ∧ Qabs (dh - inject_Z h * s) <= unit_roundoff * (inject_Z h * s)
  ∧ Qabs (dw - inject_Z w * m) <= 3 * unit_roundoff * (inject_Z w * m)
  ∧ Qabs (dh - inject_Z h * m) <= 3 * unit_roundoff * (inject_Z h * m)
  ∧ Qabs (dw * inject_Z h - dh * inject_Z w)
    <= 2 * unit_roundoff * (inject_Z w * inject_Z h * s)
  ∧ Qabs (x - (400 - dw) / 2) <= 3 * unit_roundoff * Qabs ((400 - dw) / 2)
  ∧ Qabs (y - (400 - dh) / 2) <= 3 * unit_roundoff * Qabs ((400 - dh) / 2)
  ∧ Qabs (x - (400 - inject_Z w * m) / 2) <= fit_slack
  ∧ Qabs (y - (400 - inject_Z h * m) / 2) <= fit_slack
  ∧ (w = 800%Z → h = 400%Z →
     s == 1 # 2 ∧ x == 0 ∧ y == 100 ∧ dw == 400 ∧ dh == 200).
Proof.
  intros [Hw _] [Hh _] c m s x y dw dh.
  destruct (scale_bounds w h Hw Hh) as [Hm Hs]. fold m s in Hm, Hs.
  destruct (side_bounds w m s Hw Hm Hs) as (HPw & Hdw & HWw).
  destruct (side_bounds h m s Hh Hm Hs) as (HPh & Hdh & HWh).
  change (binary64 (inject_Z w * s)) with dw in Hdw.
  change (binary64 (inject_Z h * s)) with dh in Hdh.
  split; [done|]. split; [done|]. split; [done|]. split; [done|].
  split. { apply Qabs_Qle_condition. unfold unit_roundoff in *. lra. }
  split. { apply Qabs_Qle_condition. unfold unit_roundoff in *. lra. }
  split. { apply Qabs_Qle_condition. unfold unit_roundoff in *. lra. }
  split.
  { apply Qabs_Qle_condition. clearbody dw. revert HPw Hdw HWw.
    generalize (inject_Z w * s) (inject_Z w * m). intros P W HP Hd HW.
    unfold unit_roundoff in *. lra. }
  split.
  { apply Qabs_Qle_condition. clearbody dh. revert HPh Hdh HWh.
    generalize (inject_Z h * s) (inject_Z h * m). intros P W HP Hd HW.
    unfold unit_roundoff in *. lra. }
  split.
  { apply inject_Z_pos in Hw, Hh.
    assert (H1 : (1 - unit_roundoff) * (inject_Z w * s) * inject_Z h <= dw * inject_Z h)
      by (apply Qmult_le_compat_r; lra).
    assert (H2 : dw * inject_Z h <= (1 + unit_roundoff) * (inject_Z w * s) * inject_Z h)
      by (apply Qmult_le_compat_r; lra).
    assert (H3 : (1 - unit_roundoff) * (inject_Z h * s) * inject_Z w <= dh * inject_Z w)
      by (apply Qmult_le_compat_r; lra).
    assert (H4 : dh * inject_Z w <= (1 + unit_roundoff) * (inject_Z h * s) * inject_Z w)
      by (apply Qmult_le_compat_r; lra).
    assert (HT : 0 < inject_Z w * inject_Z h * s).
    { assert (E : inject_Z w * inject_Z h * s == inject_Z h * (inject_Z w * s)) by ring.
      rewrite E. apply Qmult_lt_0_compat; lra. }
    assert (E1 : (1 - unit_roundoff) * (inject_Z w * s) * inject_Z h
                 == (1 - unit_roundoff) * (inject_Z w * inject_Z h * s)) by ring.
    assert (E2 : (1 + unit_roundoff) * (inject_Z w * s) * inject_Z h
                 == (1 + unit_roundoff) * (inject_Z w * inject_Z h * s)) by ring.
    assert (E3 : (1 - unit_roundoff) * (inject_Z h * s) * inject_Z w
                 == (1 - unit_roundoff) * (inject_Z w * inject_Z h * s)) by ring.
    assert (E4 : (1 + unit_roundoff) * (inject_Z h * s) * inject_Z w
                 == (1 + unit_roundoff) * (inject_Z w * inject_Z h * s)) by ring.
    rewrite E1 in H1. rewrite E2 in H2. rewrite E3 in H3. rewrite E4 in H4.
    apply Qabs_Qle_condition. revert H1 H2 H3 H4 HT.
    generalize (dw * inject_Z h) (dh * inject_Z w) (inject_Z w * inject_Z h * s).
    intros X Y T H1 H2 H3 H4 HT. unfold unit_roundoff in *. lra. }
  split; [apply (offset_error dw)|]. split; [apply (offset_error dh)|].
  destruct (exact_fit w h Hw Hh) as (HW & HH & _). fold m in HW, HH.
  split.
  { apply (offset_close (inject_Z w * m) (inject_Z w * s) dw); [|done|done].
    split; [|done]. apply Qmult_lt_0_compat; [by apply inject_Z_pos|done]. }
  split.
  { apply (offset_close (inject_Z h * m) (inject_Z h * s) dh); [|done|done].
    split; [|done]. apply Qmult_lt_0_compat; [by apply inject_Z_pos|done]. }
  intros -> ->. vm_compute. by repeat split.
Qed.

(** As stated, with the exact values, C8 fails for a 1060 x 800 image: the
    drawn width is 400 + 2^-44, where [w * min(400/w, 400/h)] is 400, and the
    horizontal offset is - 2^-45, where [(400 - 400) / 2] is 0. *)
Lemma C8_1060_by_800_is_not_exact :
  let c := onload 1060 800 in
  let m := Qmin (400 / 1060) (400 / 800) in
  1060 * m == 400
  ∧ (drawImage c).1.2 == 400 + (1 # 17592186044416)
  ∧ (drawImage c).1.1.1 == - (1 # 35184372088832)
  ∧ ¬ (drawImage c).1.2 == 1060 * m
  ∧ ¬ (drawImage c).1.1.1 == (400 - 1060 * m) / 2.
Proof.
  vm_compute. split; [done|]. split; [done|]. split; [done|].
  split; discriminate.
Qed.

End Composition.

Lemma C8_scale_to_fit_and_center_witness :
  (0 < 800 < 2 ^ 53)%Z ∧ (0 < 400 < 2 ^ 53)%Z
  ∧ (ThumbnailGenerator.scale 800 400 == 1 # 2
     ∧ (ThumbnailGenerator.drawImage (ThumbnailGenerator.onload 800 400)).1.1.1 == 0
     ∧ (ThumbnailGenerator.drawImage (ThumbnailGenerator.onload 800 400)).1.1.2 == 100
     ∧ (ThumbnailGenerator.drawImage (ThumbnailGenerator.onload 800 400)).1.2 == 400
     ∧ (ThumbnailGenerator.drawImage (ThumbnailGenerator.onload 800 400)).2 == 200)%Q.
Proof.
  assert (Hw : (0 < 800 < 2 ^ 53)%Z) by (split; reflexivity).
  assert (Hh : (0 < 400 < 2 ^ 53)%Z) by (split; reflexivity).
  split; [exact Hw|]. split; [exact Hh|].
  destruct (C8_scale_to_fit_and_center 800 400 Hw Hh)
    as (_ & _ & _ & _ & _ & _ & _ & _ & _ & _ & _ & _ & _ & _ & Hexact).
  exact (Hexact eq_refl eq_refl).
Defined.

(** [binary64] gives what the doubles of the machine give: on every pair of
    the sample sides the four arguments of [drawImage] computed on the
    primitive floats are the rationals of [onload]. *)
Lemma onload_agrees_with_primitive_floats :
  forallb (fun w => forallb (agrees_with_floats w) sample_sides) sample_sides = true.
Proof. vm_compute. reflexivity. Qed.

(** ** Thumbnail generation in the grid *)

(** C4, evaluated on the code. The render caused by the URL of "B" runs the 2D
    effect of the generator of "A" again, because its callback prop is a new
    function and [captured] is still false: a second [Image] is started for
    "A" while the first is loading. Both finish, each calls
    [handleThumbnailGenerated], and the cache is written twice for "A". *)
Theorem C4_two_decodes_and_two_cache_writes :
  ToolGrid.in_flight "A" <$> ToolGrid.run urls_arrive grid_mounted
  = Some [("A"%string, "https://files/A"%string); ("A"%string, "https://files/A"%string)]
  ∧ ToolGrid.cache_writes "A"
      <$> ToolGrid.run (urls_arrive ++ images_of_A_load) grid_mounted
    = Some
        [("thumbnail_A"%string,
          JSON.stringify (mkEntry "data:image/png;base64,AAAA" 10 26), true);
         ("thumbnail_A"%string,
          JSON.stringify (mkEntry "data:image/png;base64,AAAA" 20 26), true)].
Proof. split; vm_compute; reflexivity. Qed.

(** C3 as stated breaks ties by key order. After the 101 calls of
    [calls_with_tie] the cache is over its limit and the next eviction removes
    21 entries: the 20 oldest and one of the two entries stamped 20. It removes
    the entry of "zz", which was written first, and keeps the entry of "aa",
    which has the same timestamp and the smaller key. *)
Lemma C3_ties_not_in_key_order :
  Z.of_nat (List.length (cache_entries (items world_with_tie))) > MAX_CACHE_ITEMS
  ∧ assoc_lookup "thumbnail_zz" (items world_with_tie)
    = Some (JSON.stringify (mkEntry "data:," 20 6))
  ∧ assoc_lookup "thumbnail_aa" (items world_with_tie)
    = Some (JSON.stringify (mkEntry "data:," 20 6))
  ∧ String.ltb "thumbnail_aa" "thumbnail_zz" = true
  ∧ assoc_lookup "thumbnail_zz" (items (cleanupIfNeeded world_with_tie).1) = None
  ∧ assoc_lookup "thumbnail_aa" (items (cleanupIfNeeded world_with_tie).1)
    = Some (JSON.stringify (mkEntry "data:," 20 6)).
Proof. vm_compute. repeat split. Qed.

(** ** The cache on an arbitrary storage *)

Section AnyStorage.

Implicit Types (w : World) (its : list (string * Stored)) (ks : list string).

Lemma assoc_lookup_remove_ne (k k' : string) its :
  k ≠ k' → assoc_lookup k' (assoc_remove k its) = assoc_lookup k' its.
Proof.
  intros Hne. induction its as [|[k0 v0] its IH]; [done|]. simpl.
  destruct (String.eqb_spec k k0) as [->|Hk0]; simpl.
  - destruct (String.eqb_spec k' k0) as [->|_]; [done|exact IH].
  - by rewrite IH.
Qed.

Lemma assoc_lookup_remove_Some (k k' : string) its v :
  assoc_lookup k' (assoc_remove k its) = Some v → assoc_lookup k' its = Some v.
Proof.
  destruct (decide (k = k')) as [->|Hne].
  - by rewrite assoc_lookup_remove.
  - by rewrite assoc_lookup_remove_ne.
Qed.

Lemma without_keys_app ks1 ks2 its :
  without_keys ks2 (without_keys ks1 its) = without_keys (ks1 ++ ks2) its.
Proof.
  revert its. induction ks1 as [|k ks1 IH]; intros its; simpl.
  - by rewrite without_keys_nil.
  - by rewrite !without_keys_cons, IH.
Qed.

(** The enumeration in any state of the storage: it completes normally, the
    keys it deletes held unparsable text under the namespace, and the pairs it
    returns are parsed values stored under the namespace. *)
Lemma getAllEntries_loop_any (fuel i : nat) (acc : list (string * JsonValue)) w :
  ∃ (removed : list string) (es : list (string * JsonValue)),
    getAllEntries_loop fuel i acc w
    = (with_items w (without_keys removed (items w)), Normal (acc ++ es))
    ∧ Forall (fun k => namespaced k ∧ assoc_lookup k (items w) = Some TGarbage) removed
    ∧ Forall (fun kv => namespaced kv.1 ∧ assoc_lookup kv.1 (items w) = Some (TJson kv.2)) es.
Proof.
  revert i acc w. induction fuel as [|fuel IH]; intros i acc w.
  { exists [], []. by rewrite without_keys_nil, with_items_id, app_nil_r. }
  assert (Hstop : ∃ (removed : list string) (es : list (string * JsonValue)),
    (w, Normal acc) = (with_items w (without_keys removed (items w)), Normal (acc ++ es))
    ∧ Forall (fun k => namespaced k ∧ assoc_lookup k (items w) = Some TGarbage) removed
    ∧ Forall (fun kv => namespaced kv.1 ∧ assoc_lookup kv.1 (items w) = Some (TJson kv.2)) es).
  { exists [], []. by rewrite without_keys_nil, with_items_id, app_nil_r. }
  simpl. js_unfold.
  destruct (i <? List.length (items w))%nat; [|exact Hstop].
  destruct (items w !! i) as [[k v]|]; simpl; [|apply IH].
  destruct (String.prefix CACHE_PREFIX k) eqn:Hp; [|apply IH].
  destruct (assoc_lookup k (items w)) as [[| |v']|] eqn:Hl; simpl; try apply IH.
  - destruct (IH (S i) acc (with_items w (assoc_remove k (items w))))
      as (removed & es & Hrun & Hrem & Hes).
    unfold with_items in Hrem, Hes. simpl in Hrem, Hes.
    exists (k :: removed), es. rewrite Hrun. simpl. split; [|split].
    + by rewrite without_keys_cons.
    + constructor; [done|].
      eapply Forall_impl; [exact Hrem|]. intros k' [? ?]. split; [done|].
      by eapply assoc_lookup_remove_Some.
    + eapply Forall_impl; [exact Hes|]. intros kv [? ?]. split; [done|].
      by eapply assoc_lookup_remove_Some.
  - destruct (IH (S i) (acc ++ [(k, v')]) w) as (removed & es & Hrun & Hrem & Hes).
    exists removed, ((k, v') :: es). rewrite Hrun, <- app_assoc. simpl.
    split; [done|]. split; [done|]. by constructor.
Qed.

Lemma sort_insert_by_timestamp_any (x : string * JsonValue) (l : list (string * JsonValue)) w :
  (∃ s, sort_insert by_timestamp x l w = (w, Normal s) ∧ s ≡ₚ x :: l)
  ∨ sort_insert by_timestamp x l w = (w, Throw TypeError).
Proof.
  induction l as [|y l IH]; simpl.
  - left. by exists [x].
  - unfold by_timestamp at 1 3. js_unfold.
    destruct x as [kx [|ex|dx tx sx]]; simpl; [by right| |];
      (destruct y as [ky [|ey|dy ty sy]]; simpl; [by right| |]);
      (match goal with |- context [if ?b then _ else _] => destruct b end;
       [left; by eexists|];
       destruct IH as [(s & -> & Hs)| ->]; [|by right];
       left; eexists; (split; [done|]); rewrite Hs; apply Permutation_swap).
Qed.

Lemma Array_sort_by_timestamp_any (l : list (string * JsonValue)) w :
  (∃ s, Array_sort by_timestamp l w = (w, Normal s) ∧ s ≡ₚ l)
  ∨ Array_sort by_timestamp l w = (w, Throw TypeError).
Proof.
  induction l as [|x l IH]; simpl.
  - left. by exists [].
  - unfold bind. destruct IH as [(s & -> & Hs)| ->]; [|by right].
    destruct (sort_insert_by_timestamp_any x s w) as [(s' & -> & Hs')| ->]; [|by right].
    left. exists s'. split; [done|]. by rewrite Hs', Hs.
Qed.

Lemma Array_slice0_is_take {A} (e : Z) (l : list A) : ∃ m, Array_slice0 e l = take m l.
Proof. unfold Array_slice0. destruct (e <? 0); eauto. Qed.

Lemma total_size_any (es : list (string * JsonValue)) (acc : JsNumber) w :
  ∃ c, Array_reduce
         (fun total x => s <- field_size (snd x) ;; ret (number_add total s)) es acc w
       = (w, c).
Proof.
  revert acc. induction es as [|[k [|e|d0 t0 s0]] es IH]; intros acc; simpl.
  - by eexists.
  - js_unfold. simpl. by eexists.
  - js_unfold. simpl. apply IH.
  - js_unfold. simpl. apply IH.
Qed.

(** [cleanup] in any state: it completes normally and all it does to the
    storage is to delete keys of the namespace. *)
Lemma cleanup_any (count : Z) w :
  ∃ ks, cleanup count w = (with_items w (without_keys ks (items w)), Normal tt)
        ∧ Forall namespaced ks.
Proof.
  unfold cleanup, try_catch, bind at 1, getAllEntries, bind at 1, localStorage.length.
  destruct (getAllEntries_loop_any (List.length (items w)) 0 [] w)
    as (removed & es & -> & Hrem & Hes). simpl.
  assert (Hrem' : Forall namespaced removed)
    by (eapply Forall_impl; [exact Hrem|]; by intros k [? _]).
  unfold bind.
  destruct (Array_sort_by_timestamp_any es
              (with_items w (without_keys removed (items w)))) as [(s & -> & Hs)| ->].
  - destruct (Array_slice0_is_take (Z.min count (Z.of_nat (List.length s))) s) as [m ->].
    rewrite forEach_removeItem. simpl. rewrite without_keys_app.
    eexists. split; [done|]. apply Forall_app. split; [done|].
    apply Forall_fmap. apply Forall_take. rewrite Hs.
    eapply Forall_impl; [exact Hes|]. by intros kv [? _].
  - by exists removed.
Qed.

Lemma cleanupIfNeeded_any w :
  ∃ ks c, cleanupIfNeeded w = (with_items w (without_keys ks (items w)), c)
          ∧ Forall namespaced ks.
Proof.
  unfold cleanupIfNeeded, bind at 1, getAllEntries, bind at 1, localStorage.length.
  destruct (getAllEntries_loop_any (List.length (items w)) 0 [] w)
    as (removed & es & -> & Hrem & Hes). simpl.
  assert (Hrem' : Forall namespaced removed)
    by (eapply Forall_impl; [exact Hrem|]; by intros k [? _]).
  unfold bind, total_size.
  destruct (total_size_any es (Num 0) (with_items w (without_keys removed (items w))))
    as [[total|e] ->]; [|by exists removed, (Throw e)].
  destruct (_ || _); [|by exists removed, (Normal tt)].
  destruct (cleanup_any (removeCount (Z.of_nat (List.length es)))
              (with_items w (without_keys removed (items w)))) as (ks & -> & Hks).
  simpl. rewrite without_keys_app. eexists _, _. split; [done|].
  by apply Forall_app.
Qed.

End AnyStorage.

Section Isolation.

Implicit Types (w : World) (its : list (string * Stored)) (ks : list string).

Lemma foreign_remove (k : string) its :
  namespaced k → foreign (assoc_remove k its) = foreign its.
Proof.
  intros Hk. unfold foreign. induction its as [|[k' v'] its IH]; [done|]. simpl.
  destruct (String.eqb_spec k k') as [<-|Hne].
  - rewrite IH. by rewrite (filter_cons _ (k, v')), decide_False by (by intros H; apply H).
  - by rewrite !filter_cons, IH.
Qed.

Lemma foreign_without_keys ks its :
  Forall namespaced ks → foreign (without_keys ks its) = foreign its.
Proof.
  intros Hks. revert its. induction Hks as [|k ks Hk Hks IH]; intros its.
  - by rewrite without_keys_nil.
  - by rewrite without_keys_cons, IH, foreign_remove.
Qed.

Lemma foreign_upsert (k : string) (v : Stored) its :
  namespaced k → foreign (assoc_upsert k v its) = foreign its.
Proof.
  intros Hk. unfold foreign. induction its as [|[k' v'] its IH]; simpl.
  - by rewrite filter_cons, decide_False by (by intros H; apply H).
  - destruct (String.eqb_spec k k') as [<-|Hne].
    + by rewrite !(filter_cons _ (k, _)), !decide_False by (by intros H; apply H).
    + by rewrite !filter_cons, IH.
Qed.

Lemma namespaced_key (modelId : string) : namespaced (CACHE_PREFIX +:+ modelId).
Proof. apply prefix_app. Qed.

(** The [catch] block of [set] in any state. *)
Lemma set_retry_any (k : string) (v : Stored) w :
  ∃ ks,
    Forall namespaced ks
    ∧ (items ((cleanup 10 ;;
               try_catch (localStorage.setItem k v) (fun _ => ret tt)) w).1
       = without_keys ks (items w)
       ∨ items ((cleanup 10 ;;
                 try_catch (localStorage.setItem k v) (fun _ => ret tt)) w).1
         = assoc_upsert k v (without_keys ks (items w))).
Proof.
  unfold bind. destruct (cleanup_any 10 w) as (ks & -> & Hks).
  exists ks. split; [done|].
  unfold try_catch, localStorage.setItem. simpl.
  destruct (accepts w (without_keys ks (items w)) k v); simpl; auto.
Qed.

(** What [set] can do to the storage, in any state: delete keys of the
    namespace, and write the entry under its own key. *)
Lemma set_any (modelId dataUrl : string) (now retryNow : Z) w :
  ∃ ks,
    Forall namespaced ks
    ∧ (items (set modelId dataUrl now retryNow w).1 = without_keys ks (items w)
       ∨ ∃ t, (t = now ∨ t = retryNow)
              ∧ items (set modelId dataUrl now retryNow w).1
                = assoc_upsert (CACHE_PREFIX +:+ modelId)
                    (JSON.stringify
                       {| dataUrl := dataUrl; timestamp := t; size := str_length dataUrl |})
                    (without_keys ks (items w))).
Proof.
  remember (set modelId dataUrl now retryNow w) as r eqn:Hr.
  unfold set, try_catch at 1, bind at 1 in Hr.
  destruct (cleanupIfNeeded_any w) as (ks & c & Hcl & Hks). rewrite Hcl in Hr.
  assert (Hretry : ∀ w1,
    items w1 = without_keys ks (items w) →
    r = (cleanup 10 ;;
         try_catch
           (localStorage.setItem (CACHE_PREFIX +:+ modelId)
              (JSON.stringify
                 {| dataUrl := dataUrl; timestamp := retryNow;
                    size := str_length dataUrl |}))
           (fun _ => ret tt)) w1 →
    ∃ ks' : list string,
      Forall namespaced ks'
      ∧ (items r.1 = without_keys ks' (items w)
         ∨ ∃ t, (t = now ∨ t = retryNow)
                ∧ items r.1
                  = assoc_upsert (CACHE_PREFIX +:+ modelId)
                      (JSON.stringify
                         {| dataUrl := dataUrl; timestamp := t;
                            size := str_length dataUrl |})
                      (without_keys ks' (items w)))).
  { intros w1 Hw1 ->.
    destruct (set_retry_any (CACHE_PREFIX +:+ modelId)
                (JSON.stringify
                   {| dataUrl := dataUrl; timestamp := retryNow;
                      size := str_length dataUrl |}) w1) as (ks2 & Hks2 & Hcases).
    rewrite Hw1, without_keys_app in Hcases.
    exists (ks ++ ks2). split; [by apply Forall_app|].
    destruct Hcases as [->| ->]; [by left|]. right. exists retryNow. auto. }
  destruct c as [[]|e]; [|by refine (Hretry _ _ Hr)].
  unfold localStorage.setItem at 1 in Hr. simpl in Hr.
  destruct (accepts w (without_keys ks (items w)) _ _); [|by refine (Hretry _ _ Hr)].
  exists ks. split; [done|]. right. exists now. rewrite Hr. auto.
Qed.

(** What [get] can do to the storage, in any state. *)
Lemma get_items (modelId : string) (now : Z) w :
  (get modelId now w).1 = w
  ∨ ((get modelId now w).2 = Normal JsNull
     ∧ (get modelId now w).1
       = with_items w (assoc_remove (CACHE_PREFIX +:+ modelId) (items w))).
Proof.
  destruct (assoc_lookup (CACHE_PREFIX +:+ modelId) (items w))
    as [[| |[|e|d0 t0 s0]]|] eqn:Hl.
  1-3, 6: left; unfold get, try_catch, bind, localStorage.getItem; by rewrite Hl.
  - rewrite (get_entry _ _ _ _ Hl).
    destruct (now - timestamp e >? maxAge); simpl; [by right|by left].
  - rewrite (get_other _ _ _ _ _ _ Hl).
    destruct (number_gt _ _); simpl; [by right|by left].
Qed.

Lemma clear_any w :
  ∃ ks, clear w = (with_items w (without_keys ks (items w)), Normal tt)
        ∧ Forall namespaced ks.
Proof.
  unfold clear, try_catch, bind at 1, getAllEntries, bind at 1, localStorage.length.
  destruct (getAllEntries_loop_any (List.length (items w)) 0 [] w)
    as (removed & es & -> & Hrem & Hes). simpl.
  rewrite forEach_removeItem. simpl. rewrite without_keys_app.
  eexists. split; [done|]. apply Forall_app. split.
  - eapply Forall_impl; [exact Hrem|]. by intros k [? _].
  - apply Forall_fmap. eapply Forall_impl; [exact Hes|]. by intros kv [? _].
Qed.

Lemma getStats_any w :
  ∃ ks c, getStats w = (with_items w (without_keys ks (items w)), c)
          ∧ Forall (fun k => namespaced k ∧ assoc_lookup k (items w) = Some TGarbage) ks.
Proof.
  unfold getStats, bind at 1, getAllEntries, bind at 1, localStorage.length.
  destruct (getAllEntries_loop_any (List.length (items w)) 0 [] w)
    as (removed & es & -> & Hrem & Hes). simpl.
  unfold bind, total_size.
  destruct (total_size_any es (Num 0) (with_items w (without_keys removed (items w))))
    as [[total|e] ->]; by eexists _, _.
Qed.

(** The cache never touches what is not its own: every pair of the storage
    whose key is outside the namespace is still there, with its value and in
    its place, after any operation of the cache, in any state of the storage
    and whether or not writes are accepted. *)
Theorem foreign_pairs_untouched w (modelId dataUrl : string) (now retryNow count : Z) :
  foreign (items (set modelId dataUrl now retryNow w).1) = foreign (items w)
  ∧ foreign (items (get modelId now w).1) = foreign (items w)
  ∧ foreign (items (has modelId now w).1) = foreign (items w)
  ∧ foreign (items (remove modelId w).1) = foreign (items w)
  ∧ foreign (items (clear w).1) = foreign (items w)
  ∧ foreign (items (cleanup count w).1) = foreign (items w)
  ∧ foreign (items (getStats w).1) = foreign (items w)
  ∧ foreign (items (getCacheSize w).1) = foreign (items w).
Proof.
  assert (Hget : foreign (items (get modelId now w).1) = foreign (items w)).
  { destruct (get_items modelId now w) as [->|(_ & ->)]; [done|].
    apply foreign_remove, namespaced_key. }
  split_and!.
  - destruct (set_any modelId dataUrl now retryNow w) as (ks & Hks & [->|(t & _ & ->)]).
    + by apply foreign_without_keys.
    + rewrite foreign_upsert by apply namespaced_key. by apply foreign_without_keys.
  - exact Hget.
  - destruct (has_get modelId now w) as (r & _ & ->). exact Hget.
  - unfold remove, try_catch, localStorage.removeItem. simpl.
    apply foreign_remove, namespaced_key.
  - destruct (clear_any w) as (ks & -> & Hks). by apply foreign_without_keys.
  - destruct (cleanup_any count w) as (ks & -> & Hks). by apply foreign_without_keys.
  - destruct (getStats_any w) as (ks & c & -> & Hks). apply foreign_without_keys.
    eapply Forall_impl; [exact Hks|]. by intros k [? _].
  - unfold getCacheSize, bind at 1, getAllEntries, bind at 1, localStorage.length.
    destruct (getAllEntries_loop_any (List.length (items w)) 0 [] w)
      as (removed & es & -> & Hrem & Hes). simpl.
    unfold total_size.
    destruct (total_size_any es (Num 0) (with_items w (without_keys removed (items w))))
      as [c ->]. apply foreign_without_keys.
    eapply Forall_impl; [exact Hrem|]. by intros k [? _].
Qed.

End Isolation.

Section Enumeration.

Implicit Types (w : World) (its : list (string * Stored)) (ks : list string).

Lemma assoc_lookup_without_keys (k : string) ks its :
  k ∉ ks → assoc_lookup k (without_keys ks its) = assoc_lookup k its.
Proof.
  revert its. induction ks as [|k' ks IH]; intros its Hk.
  - by rewrite without_keys_nil.
  - apply not_elem_of_cons in Hk as [Hne Hk].
    rewrite without_keys_cons, IH by done. by apply assoc_lookup_remove_ne.
Qed.

Lemma assoc_lookup_without_keys_in (k : string) ks its :
  k ∈ ks → assoc_lookup k (without_keys ks its) = None.
Proof.
  intros Hk. apply assoc_lookup_None. intros Hin.
  apply list_elem_of_fmap in Hin as ([k' v] & -> & Hin).
  apply list_elem_of_filter in Hin as [Hnot _]. by apply Hnot.
Qed.

(** The enumeration behind [getStats], [cleanup] and [clear], in any state of
    the storage: it completes normally; the only keys it deletes are keys of
    the namespace whose text is not JSON; every pair it returns is a parsed
    value that the storage holds under a key of the namespace; and every key
    whose text is an entry, [null], empty, or foreign keeps its value. *)
Theorem enumeration_deletes_only_unparsable w :
  ∃ (removed : list string) (es : list (string * JsonValue)),
    getAllEntries w = (with_items w (without_keys removed (items w)), Normal es)
    ∧ Forall (fun k => namespaced k ∧ assoc_lookup k (items w) = Some TGarbage) removed
    ∧ Forall (fun kv => namespaced kv.1 ∧ assoc_lookup kv.1 (items w) = Some (TJson kv.2)) es
    ∧ (∀ k v, assoc_lookup k (items w) = Some v → v ≠ TGarbage →
         assoc_lookup k (without_keys removed (items w)) = Some v).
Proof.
  unfold getAllEntries, bind, localStorage.length.
  destruct (getAllEntries_loop_any (List.length (items w)) 0 [] w)
    as (removed & es & Hrun & Hrem & Hes).
  exists removed, es. rewrite Hrun. split_and!; try done.
  intros k v Hl Hv. rewrite assoc_lookup_without_keys; [done|].
  intros Hin. rewrite Forall_forall in Hrem.
  destruct (Hrem k Hin) as [_ Hg]. congruence.
Qed.

End Enumeration.

(** ** What the capacity check does guarantee *)

Section Headroom.

Implicit Types (w : World) (its : list (string * Stored)) (ks : list string).

Lemma assoc_remove_without_keys (k : string) its :
  assoc_remove k its = without_keys [k] its.
Proof. by rewrite without_keys_cons, without_keys_nil. Qed.

Lemma entry_count_without_keys ks its :
  entry_count (without_keys ks its) <= entry_count its.
Proof.
  unfold entry_count. rewrite cache_entries_without_keys.
  pose proof (length_filter (fun x : string * CacheEntry => x.1 ∉ ks) (cache_entries its)).
  lia.
Qed.

Lemma elem_of_upsert_keys (k k' : string) (v : Stored) its :
  k' ∈ (assoc_upsert k v its).*1 ↔ k' = k ∨ k' ∈ its.*1.
Proof.
  induction its as [|[k0 v0] its IH]; cbn [assoc_upsert].
  - rewrite !fmap_cons, elem_of_cons. simpl. tauto.
  - destruct (String.eqb_spec k k0) as [->|Hne]; rewrite !fmap_cons, !elem_of_cons.
    + simpl. tauto.
    + rewrite IH. simpl. tauto.
Qed.

Lemma NoDup_upsert (k : string) (v : Stored) its :
  NoDup its.*1 → NoDup (assoc_upsert k v its).*1.
Proof.
  induction its as [|[k0 v0] its IH]; cbn [assoc_upsert]; intros Hnd.
  - rewrite fmap_cons. apply NoDup_singleton.
  - rewrite fmap_cons in Hnd. apply NoDup_cons in Hnd as [Hk0 Hnd].
    destruct (String.eqb_spec k k0) as [->|Hne]; rewrite fmap_cons;
      apply NoDup_cons; simpl in *.
    + done.
    + split; [|by apply IH]. rewrite elem_of_upsert_keys. by intros [?|?].
Qed.

Lemma well_formed_upsert (k : string) (e : CacheEntry) its :
  well_formed its → well_formed (assoc_upsert k (TJson (JEntry e)) its).
Proof.
  intros [Hnd Hok]. split; [by apply NoDup_upsert|].
  clear Hnd. induction its as [|[k' v'] its IH]; simpl in *.
  - unfold entry_ok. simpl. by destruct (String.prefix CACHE_PREFIX k).
  - apply andb_true_iff in Hok as [Hkv Hok].
    destruct (String.eqb_spec k k') as [->|Hne]; simpl.
    + rewrite Hok, andb_true_r. unfold entry_ok. simpl.
      by destruct (String.prefix CACHE_PREFIX k').
    + by rewrite Hkv, IH.
Qed.

Lemma entry_count_upsert (k : string) (v : Stored) its :
  entry_count (assoc_upsert k v its) <= entry_count its + 1.
Proof.
  unfold entry_count, cache_entries.
  induction its as [|[k' v'] its IH]; cbn [assoc_upsert].
  - rewrite omap_cons. destruct (entry_of (k, v)); simpl; lia.
  - destruct (String.eqb_spec k k') as [->|Hne]; rewrite !omap_cons.
    + destruct (entry_of (k', v)), (entry_of (k', v')); rewrite ?length_cons; lia.
    + destruct (entry_of (k', v')); rewrite ?length_cons; lia.
Qed.

(** The bounds on what [cleanupIfNeeded] leaves in a well-formed storage. *)
Lemma cleanupIfNeeded_headroom w :
  well_formed (items w) →
  ∃ its',
    cleanupIfNeeded w = (with_items w its', Normal tt)
    ∧ well_formed its'
    ∧ entry_count its' <= 100
    ∧ (entry_count (items w) > 100 → entry_count its' <= 90)
    ∧ (its' ≠ items w → 5 * entry_count its' <= 4 * entry_count (items w)).
Proof.
  intros Hwf. rewrite cleanupIfNeeded_well_formed by done.
  fold (entry_count (items w)).
  destruct ((sum_sizes (cache_entries (items w)) >? MAX_CACHE_SIZE)
            || (entry_count (items w) >? MAX_CACHE_ITEMS)) eqn:Htrig.
  - pose proof (removeCount_bounds (entry_count (items w)) ltac:(unfold entry_count; lia))
      as Hb.
    destruct (cleanup_oldest_first w (removeCount (entry_count (items w))) Hwf ltac:(lia))
      as (removed & kept & Hrun & Hkept & Hperm & Hlen & _ & _).
    exists (without_keys removed.*1 (items w)). split; [done|].
    split; [by apply well_formed_without_keys|].
    assert (Hcount : entry_count (without_keys removed.*1 (items w))
                     = entry_count (items w) - removeCount (entry_count (items w))).
    { unfold entry_count in *. rewrite Hkept.
      assert (Hl := Permutation_length Hperm). rewrite length_app in Hl. lia. }
    rewrite Hcount. clear Hrun Hkept Hperm Hlen Hcount.
    unfold removeCount, MAX_CACHE_ITEMS, ceil_times_0_2, Qceiling, Qfloor in *.
    simpl in *. split_and!; intros; Z.to_euclidean_division_equations; lia.
  - exists (items w). rewrite with_items_id. split; [done|]. split; [done|].
    apply orb_false_iff in Htrig as [_ Hn]. unfold MAX_CACHE_ITEMS in Hn.
    split_and!; [lia|lia|done].
Qed.

(** After the capacity check the cache has room: on a well-formed storage
    [cleanupIfNeeded] completes normally and leaves at most 100 entries; when
    it found more than 100 it leaves at most 90, and whenever it evicts it
    leaves at most four fifths of what it found. *)
Theorem capacity_check_leaves_headroom w :
  well_formed (items w) →
  ∃ its',
    cleanupIfNeeded w = (with_items w its', Normal tt)
    ∧ well_formed its'
    ∧ entry_count its' <= 100
    ∧ (entry_count (items w) > 100 → entry_count its' <= 90)
    ∧ (its' ≠ items w → 5 * entry_count its' <= 4 * entry_count (items w)).
Proof. exact (cleanupIfNeeded_headroom w). Qed.

(** One call of [set] keeps a well-formed storage well formed and leaves at
    most 101 entries in it. *)
Lemma set_keeps_well_formed_at_most_101 (modelId dataUrl : string) (now retryNow : Z) w :
  well_formed (items w) →
  well_formed (items (set modelId dataUrl now retryNow w).1)
  ∧ entry_count (items (set modelId dataUrl now retryNow w).1) <= 101.
Proof.
  intros Hwf.
  destruct (cleanupIfNeeded_headroom w Hwf) as (its1 & Hcl & Hwf1 & Hn1 & _ & _).
  remember (set modelId dataUrl now retryNow w) as r eqn:Hr.
  unfold set, try_catch at 1, bind at 1 in Hr. rewrite Hcl in Hr.
  unfold localStorage.setItem at 1 in Hr. simpl in Hr.
  destruct (accepts w its1 _ _).
  - rewrite Hr. simpl. split; [by apply well_formed_upsert|].
    pose proof (entry_count_upsert (CACHE_PREFIX +:+ modelId)
                  (JSON.stringify
                     {| dataUrl := dataUrl; timestamp := now; size := str_length dataUrl |})
                  its1). lia.
  - unfold bind in Hr.
    rewrite cleanup_well_formed in Hr by (done || lia).
    unfold try_catch, localStorage.setItem in Hr. simpl in Hr.
    match type of Hr with context [without_keys ?ks its1] =>
      pose proof (entry_count_without_keys ks its1) as Hn2;
      pose proof (well_formed_without_keys ks its1 Hwf1) as Hwf2;
      set (its2 := without_keys ks its1) in *
    end.
    destruct (accepts w its2 _ _); rewrite Hr; simpl.
    + split; [by apply well_formed_upsert|].
      pose proof (entry_count_upsert (CACHE_PREFIX +:+ modelId)
                    (JSON.stringify
                       {| dataUrl := dataUrl; timestamp := retryNow;
                          size := str_length dataUrl |})
                    its2). lia.
    + split; [done|lia].
Qed.

Lemma getCacheSize_getStats w :
  (getCacheSize w).1 = (getStats w).1
  ∧ (getCacheSize w).2
    = match (getStats w).2 with Normal (_, s) => Normal s | Throw e => Throw e end.
Proof.
  unfold getCacheSize, getStats, bind.
  destruct (getAllEntries w) as [w1 [es|e]]; [|done].
  by destruct (total_size es w1) as [w2 [s|e]].
Qed.

Lemma run_op_well_formed (op : CacheOp) w :
  well_formed (items w) → well_formed (items (run_op w op)).
Proof.
  intros Hwf. destruct op as [m d t t'|m t|m t|m| |c| |]; simpl.
  - by apply set_keeps_well_formed_at_most_101.
  - destruct (get_items m t w) as [->|(_ & ->)]; [done|].
    simpl. rewrite assoc_remove_without_keys. by apply well_formed_without_keys.
  - destruct (has_get m t w) as (r & _ & ->). simpl.
    destruct (get_items m t w) as [->|(_ & ->)]; [done|].
    simpl. rewrite assoc_remove_without_keys. by apply well_formed_without_keys.
  - unfold remove, try_catch, localStorage.removeItem. simpl.
    rewrite assoc_remove_without_keys. by apply well_formed_without_keys.
  - destruct (clear_any w) as (ks & -> & _). by apply well_formed_without_keys.
  - destruct (cleanup_any c w) as (ks & -> & _). by apply well_formed_without_keys.
  - destruct (getStats_any w) as (ks & c & -> & _). by apply well_formed_without_keys.
  - rewrite (proj1 (getCacheSize_getStats w)).
    destruct (getStats_any w) as (ks & c & -> & _). by apply well_formed_without_keys.
Qed.

Lemma run_ops_well_formed (ops : list CacheOp) w :
  well_formed (items w) → well_formed (items (run_ops ops w)).
Proof.
  revert w. induction ops as [|op ops IH]; intros w Hwf; [done|].
  simpl. apply IH. by apply run_op_well_formed.
Qed.

(** Every state that the public operations can reach from an empty storage is
    well formed, and right after each [set] the cache holds at most 101
    entries and [getStats] completes normally with that count: the bound the
    code keeps is [MAX_CACHE_ITEMS + 1], under any quota policy of the storage
    and for any ids, payloads and clock readings. *)
Theorem at_most_101_entries_after_set
  (policy : list (string * Stored) → string → Stored → bool)
  (ops : list CacheOp) (modelId dataUrl : string) (now retryNow : Z) :
  let w := run_ops ops {| items := []; accepts := policy; setItem_log := [] |} in
  let w' := (set modelId dataUrl now retryNow w).1 in
  well_formed (items w)
  ∧ well_formed (items w')
  ∧ getStats w'
    = (w', Normal (entry_count (items w'), Num (sum_sizes (cache_entries (items w')))))
  ∧ entry_count (items w') <= 101.
Proof.
  intros w w'.
  assert (Hwf : well_formed (items w)).
  { apply run_ops_well_formed. split; [apply NoDup_nil_2|done]. }
  destruct (set_keeps_well_formed_at_most_101 modelId dataUrl now retryNow w Hwf)
    as [Hwf' Hn].
  split_and!; try done. by apply getStats_well_formed.
Qed.

End Headroom.

Lemma capacity_check_leaves_headroom_witness :
  well_formed (items world_101)
  ∧ entry_count (items world_101) > 100
  ∧ ∃ its', cleanupIfNeeded world_101 = (with_items world_101 its', Normal tt)
            ∧ entry_count its' <= 90.
Proof.
  assert (Hwf : well_formed (items world_101)) by well_formed_by_computation.
  assert (Hn : entry_count (items world_101) > 100) by (vm_compute; reflexivity).
  split; [exact Hwf|]. split; [exact Hn|].
  destruct (capacity_check_leaves_headroom world_101 Hwf)
    as (its' & Hrun & _ & _ & H90 & _).
  exists its'. split; [exact Hrun|]. exact (H90 Hn).
Defined.

(** ** Removal, clearing and reads *)

Section RemoveClearGet.

Implicit Types (w : World) (its : list (string * Stored)) (ks : list string).

Lemma assoc_remove_absent (k : string) its :
  assoc_lookup k its = None → assoc_remove k its = its.
Proof.
  induction its as [|[k' v'] its IH]; [done|]. simpl.
  destruct (String.eqb_spec k k'); [done|]. intros H. by rewrite IH.
Qed.

Lemma get_absent (modelId : string) (now : Z) w :
  assoc_lookup (CACHE_PREFIX +:+ modelId) (items w) = None →
  get modelId now w = (w, Normal JsNull).
Proof.
  intros Hl. unfold get, try_catch, bind, localStorage.getItem. by rewrite Hl.
Qed.

(** [remove] deletes the key of its id and nothing else, and completes
    normally: afterwards [get] and [has] find nothing under the id, every other
    key holds what it held, a second [remove] changes nothing, and on an id
    that is not cached the storage is left as it is. *)
Theorem remove_deletes_only_its_key (modelId : string) (now : Z) w :
  let key := CACHE_PREFIX +:+ modelId in
  let w' := (remove modelId w).1 in
  (remove modelId w).2 = Normal tt
  ∧ get modelId now w' = (w', Normal JsNull)
  ∧ has modelId now w' = (w', Normal false)
  ∧ (∀ k, k ≠ key → assoc_lookup k (items w') = assoc_lookup k (items w))
  ∧ remove modelId w' = (w', Normal tt)
  ∧ (assoc_lookup key (items w) = None → w' = w).
Proof.
  intros key w'.
  assert (Hw' : w' = with_items w (assoc_remove key (items w))) by done.
  assert (Hgone : assoc_lookup key (items w') = None)
    by (rewrite Hw'; apply assoc_lookup_remove).
  assert (Hget : get modelId now w' = (w', Normal JsNull)) by (by apply get_absent).
  split_and!.
  - done.
  - exact Hget.
  - unfold has, bind. by rewrite Hget.
  - intros k Hk. rewrite Hw'. simpl. by apply assoc_lookup_remove_ne.
  - unfold remove, try_catch, localStorage.removeItem. fold key.
    rewrite (assoc_remove_absent _ _ Hgone). by rewrite with_items_id.
  - intros Hnone. rewrite Hw', (assoc_remove_absent _ _ Hnone). apply with_items_id.
Qed.

Lemma filter_ext_in {A} (P Q : A → Prop) `{∀ x, Decision (P x)} `{∀ x, Decision (Q x)}
  (l : list A) :
  Forall (fun x => P x ↔ Q x) l → filter P l = filter Q l.
Proof.
  induction 1 as [|x l Hx Hl IH]; [done|].
  rewrite !filter_cons, IH. destruct (decide (P x)), (decide (Q x)); tauto.
Qed.

Lemma cache_entries_keys_namespaced its : Forall namespaced (cache_entries its).*1.
Proof.
  unfold cache_entries. induction its as [|kv its IH]; [constructor|].
  rewrite omap_cons. destruct (entry_of kv) as [x|] eqn:He; [|done].
  rewrite fmap_cons. constructor; [|done].
  rewrite (entry_of_key _ _ He). unfold entry_of in He. unfold namespaced.
  by destruct (String.prefix CACHE_PREFIX kv.1).
Qed.

Lemma elem_of_cache_entries_keys (kv : string * Stored) its :
  kv ∈ its → entry_ok kv = true → namespaced kv.1 → kv.1 ∈ (cache_entries its).*1.
Proof.
  intros Hin Hok Hns. destruct (entry_ok_of kv Hok Hns) as (e & _ & He).
  apply list_elem_of_fmap. exists (kv.1, e). split; [done|].
  unfold cache_entries. apply list_elem_of_omap. by exists kv.
Qed.

Lemma without_entry_keys_foreign its :
  well_formed its → without_keys (cache_entries its).*1 its = foreign its.
Proof.
  intros [_ Hok]. unfold without_keys, foreign. apply filter_ext_in.
  apply Forall_forall. intros kv Hin. split.
  - intros Hnot Hns. apply Hnot. apply elem_of_cache_entries_keys; [done| |done].
    rewrite forallb_forall in Hok. by apply Hok, list_elem_of_In.
  - intros Hns Hk. apply Hns.
    pose proof (cache_entries_keys_namespaced its) as Hall.
    rewrite Forall_forall in Hall. by apply Hall.
Qed.

Lemma cache_entries_foreign its : cache_entries (foreign its) = [].
Proof.
  unfold cache_entries, foreign. induction its as [|kv its IH]; [done|].
  rewrite filter_cons. destruct (decide (¬ namespaced kv.1)) as [Hf|Hf]; [|done].
  rewrite omap_cons, IH. unfold entry_of, namespaced in *.
  by destruct (String.prefix CACHE_PREFIX kv.1).
Qed.

(** [clear] on a well-formed storage removes every entry of the cache and
    nothing else: what is left is exactly the pairs outside the namespace, in
    their order, and [getStats] then reports an empty cache. *)
Theorem clear_leaves_exactly_the_foreign_pairs w :
  well_formed (items w) →
  clear w = (with_items w (foreign (items w)), Normal tt)
  ∧ getStats (clear w).1 = ((clear w).1, Normal (0, Num 0)).
Proof.
  intros Hwf.
  assert (Hclear : clear w = (with_items w (foreign (items w)), Normal tt)).
  { unfold clear, try_catch, bind. rewrite getAllEntries_well_formed by done.
    rewrite forEach_removeItem, as_json_keys. by rewrite without_entry_keys_foreign. }
  split; [done|]. rewrite Hclear. simpl.
  rewrite getStats_well_formed.
  - simpl. by rewrite cache_entries_foreign.
  - simpl. rewrite <- without_entry_keys_foreign by done.
    by apply well_formed_without_keys.
Qed.


End RemoveClearGet.

Lemma clear_leaves_exactly_the_foreign_pairs_witness :
  well_formed (items world_full)
  ∧ clear world_full = (with_items world_full [], Normal tt).
Proof.
  assert (Hwf : well_formed (items world_full)) by well_formed_by_computation.
  split; [exact Hwf|].
  exact (proj1 (clear_leaves_exactly_the_foreign_pairs world_full Hwf)).
Defined.


(** ** Writes without eviction, and [cleanup] for every count *)

Section WriteAndCleanup.

Implicit Types (w : World) (its : list (string * Stored)) (ks : list string).





Lemma Array_slice0_fmap {A B} (f : A → B) (e : Z) (l : list A) :
  Array_slice0 e (f <$> l) = f <$> Array_slice0 e l.
Proof.
  unfold Array_slice0. rewrite length_fmap. destruct (e <? 0); symmetry; apply fmap_take.
Qed.

Lemma cleanup_well_formed_any_count w (count : Z) :
  well_formed (items w) →
  cleanup count w
  = (with_items w
       (without_keys
          (Array_slice0 (Z.min count (entry_count (items w)))
             (sort_ts (cache_entries (items w)))).*1
          (items w)),
     Normal tt).
Proof.
  intros Hwf. unfold cleanup, try_catch, bind at 1.
  rewrite getAllEntries_well_formed by done.
  unfold bind. rewrite Array_sort_entries.
  rewrite length_fmap, sort_ts_length, Array_slice0_fmap.
  by rewrite forEach_removeItem, as_json_keys.
Qed.

(** How many entries [cleanup(count)] removes from a well-formed storage with
    [n] entries, for every integer [count]: [min count n] when [count] is not
    negative, so nothing for 0 and everything for [count >= n]; and
    [max (n + count) 0] when [count] is negative, because [slice(0, e)] counts
    a negative [e] from the end: [cleanup(-k)] keeps the [k] newest entries and
    removes all the others. In every case the removed entries are the oldest. *)
Theorem cleanup_for_every_count w (count : Z) :
  well_formed (items w) →
  let es := cache_entries (items w) in
  let n := entry_count (items w) in
  ∃ removed kept : list (string * CacheEntry),
    cleanup count w = (with_items w (without_keys removed.*1 (items w)), Normal tt)
    ∧ cache_entries (without_keys removed.*1 (items w)) ≡ₚ kept
    ∧ es ≡ₚ removed ++ kept
    ∧ Z.of_nat (List.length removed)
      = (if count <? 0 then Z.max (n + count) 0 else Z.min count n)
    ∧ (∀ r k, r ∈ removed → k ∈ kept → timestamp r.2 <= timestamp k.2).
Proof.
  intros Hwf es n.
  rewrite cleanup_well_formed_any_count by done. fold es n.
  destruct (Array_slice0_is_take (Z.min count n) (sort_ts es)) as [m Hm].
  assert (Hlen : Z.of_nat (List.length (Array_slice0 (Z.min count n) (sort_ts es)))
                 = if count <? 0 then Z.max (n + count) 0 else Z.min count n).
  { unfold Array_slice0. rewrite sort_ts_length.
    assert (Hn : n = Z.of_nat (List.length es)) by done.
    destruct (Z.ltb_spec count 0), (Z.ltb_spec (Z.min count n) 0); try lia;
      rewrite length_take, sort_ts_length; lia. }
  rewrite Hm in *.
  exists (take m (sort_ts es)), (drop m (sort_ts es)).
  assert (Hperm : es ≡ₚ take m (sort_ts es) ++ drop m (sort_ts es))
    by (by rewrite take_drop, sort_ts_Permutation).
  split_and!; try done.
  - rewrite cache_entries_without_keys. fold es.
    rewrite (filter_Permutation _ _ _ Hperm).
    rewrite kept_after_removal; [done|].
    rewrite <- Hperm. by apply cache_entries_NoDup.
  - intros r k Hr Hk.
    by apply (StronglySorted_app_1_elem_of older_eq _ _ r k
                (eq_ind_r _ (sort_ts_sorted es) (take_drop m (sort_ts es)))).
Qed.

End WriteAndCleanup.


Lemma cleanup_for_every_count_witness :
  well_formed (items world_full)
  ∧ ∃ removed kept : list (string * CacheEntry),
      cleanup (-1) world_full
      = (with_items world_full (without_keys removed.*1 (items world_full)), Normal tt)
      ∧ cache_entries (items world_full) ≡ₚ removed ++ kept
      ∧ Z.of_nat (List.length removed) = 2.
Proof.
  assert (Hwf : well_formed (items world_full)) by well_formed_by_computation.
  split; [exact Hwf|].
  destruct (cleanup_for_every_count world_full (-1) Hwf)
    as (removed & kept & Hrun & _ & Hperm & Hlen & _).
  exists removed, kept. split; [exact Hrun|]. split; [exact Hperm|].
  rewrite Hlen. vm_compute. reflexivity.
Defined.

(** ** Deleting while enumerating *)

Section SkipAfterDelete.

Implicit Types (w : World) (its : list (string * Stored)) (ks : list string).

Lemma assoc_remove_not_in (k : string) its : k ∉ its.*1 → assoc_remove k its = its.
Proof. intros H. by apply assoc_remove_absent, assoc_lookup_None. Qed.

Lemma assoc_remove_at (i : nat) (k : string) (v : Stored) its :
  NoDup its.*1 → its !! i = Some (k, v) →
  assoc_remove k its = take i its ++ drop (S i) its.
Proof.
  revert i. induction its as [|[k0 v0] its IH]; intros i Hnd Hi; [done|].
  rewrite fmap_cons in Hnd. apply NoDup_cons in Hnd as [Hk0 Hnd].
  destruct i as [|i]; simpl in Hi |- *.
  - injection Hi as -> ->. rewrite String.eqb_refl. rewrite drop_0.
    by apply assoc_remove_not_in.
  - destruct (String.eqb_spec k k0) as [->|Hne].
    + exfalso. apply Hk0. apply list_elem_of_fmap. exists (k0, v).
      split; [done|]. by eapply list_elem_of_lookup_2.
    + f_equal. by eapply IH.
Qed.

Lemma NoDup_assoc_remove (k : string) its : NoDup its.*1 → NoDup (assoc_remove k its).*1.
Proof.
  intros Hnd. rewrite assoc_remove_filter.
  eapply sublist_NoDup; [exact Hnd|]. apply fmap_sublist, sublist_filter.
Qed.

Lemma drop_keys_subseteq (j i : nat) its : (drop (i + j) its).*1 ⊆ (drop i its).*1.
Proof. rewrite <- drop_drop. apply sublist_subseteq, fmap_sublist, sublist_drop. Qed.

(** The keys that the loop deletes or returns from index [i] on are keys that
    the storage holds at index [i] or later. *)
Lemma getAllEntries_loop_from (fuel i : nat) (acc : list (string * JsonValue)) w :
  NoDup (items w).*1 →
  ∃ (removed : list string) (es : list (string * JsonValue)),
    getAllEntries_loop fuel i acc w
    = (with_items w (without_keys removed (items w)), Normal (acc ++ es))
    ∧ removed ⊆ (drop i (items w)).*1
    ∧ es.*1 ⊆ (drop i (items w)).*1.
Proof.
  revert i acc w. induction fuel as [|fuel IH]; intros i acc w Hnd.
  { exists [], []. rewrite without_keys_nil, with_items_id, app_nil_r.
    split; [done|]. split; apply list_subseteq_nil. }
  assert (Hstop : ∃ (removed : list string) (es : list (string * JsonValue)),
    (w, Normal acc) = (with_items w (without_keys removed (items w)), Normal (acc ++ es))
    ∧ removed ⊆ (drop i (items w)).*1
    ∧ es.*1 ⊆ (drop i (items w)).*1).
  { exists [], []. rewrite without_keys_nil, with_items_id, app_nil_r.
    split; [done|]. split; apply list_subseteq_nil. }
  assert (Hnext : ∀ acc',
    ∃ (removed : list string) (es : list (string * JsonValue)),
      getAllEntries_loop fuel (S i) acc' w
      = (with_items w (without_keys removed (items w)), Normal (acc' ++ es))
      ∧ removed ⊆ (drop i (items w)).*1
      ∧ es.*1 ⊆ (drop i (items w)).*1).
  { intros acc'. destruct (IH (S i) acc' w Hnd) as (removed & es & Hrun & Hr & He).
    exists removed, es. split; [done|].
    split; (etrans; [eassumption|]); rewrite <- (Nat.add_1_r i);
      apply drop_keys_subseteq. }
  simpl. js_unfold.
  destruct (i <? List.length (items w))%nat; [|exact Hstop].
  destruct (items w !! i) as [[k v]|] eqn:Hi; simpl; [|apply Hnext].
  destruct (String.prefix CACHE_PREFIX k) eqn:Hp; [|apply Hnext].
  assert (Hk : k ∈ (drop i (items w)).*1).
  { rewrite (drop_S _ _ _ Hi), fmap_cons. apply list_elem_of_here. }
  destruct (assoc_lookup k (items w)) as [[| |v']|] eqn:Hl; simpl; try apply Hnext.
  - destruct (IH (S i) acc (with_items w (assoc_remove k (items w)))
                (NoDup_assoc_remove k _ Hnd))
      as (removed & es & Hrun & Hr & He).
    unfold with_items in Hr, He. simpl in Hr, He.
    exists (k :: removed), es. rewrite Hrun. simpl. rewrite without_keys_cons.
    split; [done|].
    assert (Hsub : (drop (S i) (assoc_remove k (items w))).*1 ⊆ (drop i (items w)).*1).
    { rewrite (assoc_remove_at i k v _ Hnd Hi), <- (Nat.add_1_r i).
      rewrite drop_app_add'
        by (rewrite length_take_le; [done|]; apply lookup_lt_Some in Hi; lia).
      etrans; [apply (drop_keys_subseteq 1 0)|]. rewrite drop_0.
      rewrite (Nat.add_1_r i), <- (Nat.add_1_r i). apply drop_keys_subseteq. }
    split.
    + intros x [->|Hx]%elem_of_cons; [done|]. by apply Hsub, Hr.
    + by etrans.
  - destruct (Hnext (acc ++ [(k, v')])) as (removed & es & Hrun & Hr & He).
    exists removed, ((k, v') :: es). rewrite Hrun, <- app_assoc. simpl.
    split; [done|]. split; [done|].
    intros x [->|Hx]%elem_of_cons; [done|]. by apply He.
Qed.

(** One round of the loop on an unparsable value of the namespace. *)
Lemma getAllEntries_loop_garbage (fuel i : nat) (acc : list (string * JsonValue)) w
  (k : string) (v : Stored) :
  items w !! i = Some (k, v) →
  assoc_lookup k (items w) = Some TGarbage →
  namespaced k →
  getAllEntries_loop (S fuel) i acc w
  = getAllEntries_loop fuel (S i) acc (with_items w (assoc_remove k (items w))).
Proof.
  intros Hi Hl Hns. simpl. js_unfold.
  pose proof (lookup_lt_Some _ _ _ Hi) as Hlt.
  destruct (Nat.ltb_spec i (List.length (items w))); [|lia].
  rewrite Hi. simpl. unfold namespaced in Hns. by rewrite Hns, Hl.
Qed.

(** Deleting a key while enumerating by index makes the loop skip the pair
    that moves into the freed index. When the storage begins with an
    unparsable value of the namespace, the pair right after it is neither
    returned nor deleted by the enumeration: [clear] leaves it in the storage
    even when it is an entry of the cache. *)
Theorem pair_after_deleted_key_is_skipped (k1 k2 : string) (v2 : Stored)
  (rest : list (string * Stored)) w :
  items w = (k1, TGarbage) :: (k2, v2) :: rest →
  namespaced k1 →
  NoDup (items w).*1 →
  (∃ removed es,
     getAllEntries w = (with_items w (without_keys removed (items w)), Normal es)
     ∧ (k2 ∉ removed) ∧ (k2 ∉ es.*1))
  ∧ assoc_lookup k2 (items (clear w).1) = Some v2.
Proof.
  intros Hits Hns Hnd.
  assert (Hnd' := Hnd). rewrite Hits, !fmap_cons in Hnd'.
  apply NoDup_cons in Hnd' as [Hk1 Hnd']. apply NoDup_cons in Hnd' as [Hk2 Hrest].
  simpl in Hk1, Hk2.
  assert (Hne : k1 ≠ k2) by (intros ->; apply Hk1, list_elem_of_here).
  assert (Hk1r : k1 ∉ rest.*1) by (intros ?; by apply Hk1, list_elem_of_further).
  assert (Hrem1 : assoc_remove k1 (items w) = (k2, v2) :: rest).
  { rewrite Hits. simpl. rewrite String.eqb_refl.
    destruct (String.eqb_spec k1 k2) as [?|_]; [done|].
    by rewrite (assoc_remove_not_in k1 rest Hk1r). }
  assert (Hfirst : getAllEntries w
                   = getAllEntries_loop (S (List.length rest)) 1 []
                       (with_items w ((k2, v2) :: rest))).
  { unfold getAllEntries, bind at 1, localStorage.length.
    replace (List.length (items w)) with (S (S (List.length rest))) by (by rewrite Hits).
    rewrite (getAllEntries_loop_garbage (S (List.length rest)) 0 [] w k1 TGarbage).
    - by rewrite Hrem1.
    - by rewrite Hits.
    - rewrite Hits. simpl. by rewrite String.eqb_refl.
    - done. }
  assert (Henum : ∃ removed es,
    getAllEntries w = (with_items w (without_keys removed (items w)), Normal es)
    ∧ (k2 ∉ removed) ∧ (k2 ∉ es.*1)).
  { rewrite Hfirst.
    destruct (getAllEntries_loop_from (S (List.length rest)) 1 []
                (with_items w ((k2, v2) :: rest)))
      as (removed & es & Hrun & Hr & He).
    { simpl. by apply NoDup_cons. }
    rewrite Hrun. simpl in *. rewrite drop_0 in Hr, He.
    exists (k1 :: removed), es. split_and!.
    - by rewrite without_keys_cons, Hrem1.
    - intros [?|Hin]%elem_of_cons; [done|]. by apply Hk2, Hr.
    - intros Hin. by apply Hk2, He. }
  split; [exact Henum|].
  destruct Henum as (removed & es & Hrun & Hr & He).
  unfold clear, try_catch, bind. rewrite Hrun, forEach_removeItem. simpl.
  rewrite without_keys_app, assoc_lookup_without_keys.
  - rewrite Hits. simpl. destruct (String.eqb_spec k2 k1) as [->|_]; [done|].
    by rewrite String.eqb_refl.
  - by intros [?|?]%elem_of_app.
Qed.

End SkipAfterDelete.

Lemma pair_after_deleted_key_is_skipped_witness :
  items world_garbage_then_entry
  = [("thumbnail_a"%string, TGarbage);
     ("thumbnail_b"%string, JSON.stringify (mkEntry "data:,b" 10 7))]
  ∧ namespaced "thumbnail_a"
  ∧ NoDup (items world_garbage_then_entry).*1
  ∧ assoc_lookup "thumbnail_b" (items (clear world_garbage_then_entry).1)
    = Some (JSON.stringify (mkEntry "data:,b" 10 7)).
Proof.
  assert (Hns : namespaced "thumbnail_a") by reflexivity.
  assert (Hnd : NoDup (items world_garbage_then_entry).*1)
    by (apply (bool_decide_unpack _); vm_compute; exact I).
  split; [reflexivity|]. split; [exact Hns|]. split; [exact Hnd|].
  exact (proj2 (pair_after_deleted_key_is_skipped "thumbnail_a" "thumbnail_b"
                  (JSON.stringify (mkEntry "data:,b" 10 7)) []
                  world_garbage_then_entry eq_refl Hns Hnd)).
Defined.

(** ** Formatting a size *)

Section FormatSize.

Lemma toFixed1_tenths (num den : Z) :
  0 < den →
  Qfloor (inject_Z num / inject_Z den * 10 + (1 # 2)) = (20 * num + den) / (2 * den).
Proof.
  intros Hden. destruct den as [|d|d]; try lia.
  unfold Qfloor, Qdiv, Qmult, Qplus, Qinv, inject_Z. simpl.
  f_equal; lia.
Qed.

(** The unit shown is B below 1024 bytes, KB below 1024 * 1024 and MB from
    there on; the number shown with one decimal is the quotient rounded to the
    nearest tenth, so it is off by at most 0.05; and because the unit is
    chosen before rounding, sizes from 1048525 to 1048575 bytes are shown as
    "1024.0 KB" and not as "1.0 MB". *)
Theorem formatSize_unit_and_rounding (bytes : Z) :
  0 <= bytes < 2 ^ 53 →
  (bytes < 1024 → formatSize bytes = pretty bytes +:+ " B")
  ∧ (1024 <= bytes < 1024 * 1024 →
     ∃ n, formatSize bytes = show_tenths n +:+ " KB"
          ∧ 10 <= n <= 10240
          ∧ -1024 < 2 * (1024 * n - 10 * bytes) <= 1024)
  ∧ (1024 * 1024 <= bytes →
     ∃ n, formatSize bytes = show_tenths n +:+ " MB"
          ∧ 10 <= n
          ∧ -1048576 < 2 * (1048576 * n - 10 * bytes) <= 1048576)
  ∧ (1048525 <= bytes < 1048576 → formatSize bytes = "1024.0 KB"%string).
Proof.
  intros Hb.
  assert (Hkb : 1024 <= bytes < 1024 * 1024 →
                formatSize bytes = show_tenths ((20 * bytes + 1024) / 2048) +:+ " KB").
  { intros H. unfold formatSize, toFixed1.
    destruct (Z.ltb_spec bytes 1024); [lia|].
    destruct (Z.ltb_spec bytes (1024 * 1024)); [|lia].
    change (1024%Q) with (inject_Z 1024). by rewrite toFixed1_tenths. }
  split_and!.
  - intros H. unfold formatSize. by destruct (Z.ltb_spec bytes 1024); [|lia].
  - intros H. eexists. split; [by apply Hkb|].
    split; Z.to_euclidean_division_equations; lia.
  - intros H. exists ((20 * bytes + 1048576) / 2097152). split.
    + unfold formatSize, toFixed1.
      destruct (Z.ltb_spec bytes 1024); [lia|].
      destruct (Z.ltb_spec bytes (1024 * 1024)); [lia|].
      change ((1024 * 1024)%Q) with (inject_Z 1048576). by rewrite toFixed1_tenths.
    + split; Z.to_euclidean_division_equations; lia.
  - intros H. rewrite Hkb by lia.
    replace ((20 * bytes + 1024) / 2048) with 10240
      by (Z.to_euclidean_division_equations; lia).
    reflexivity.
Qed.

End FormatSize.

Lemma formatSize_unit_and_rounding_witness :
  0 <= 1048575 < 2 ^ 53
  ∧ formatSize 1048575 = "1024.0 KB"%string
  ∧ formatSize 1536 = "1.5 KB"%string
  ∧ formatSize 1023 = "1023 B"%string.
Proof.
  assert (Hb : 0 <= 1048575 < 2 ^ 53) by (split; [discriminate|reflexivity]).
  split; [exact Hb|]. split.
  - apply (formatSize_unit_and_rounding 1048575 Hb). split; [discriminate|reflexivity].
  - split; reflexivity.
Defined.

(** ** Further properties of the thumbnail composition *)

Section Composition2D.

Local Open Scope Q_scope.

Import ThumbnailGenerator.

(** The drawn rectangle lies inside the canvas up to rounding: its sides are
    positive and exceed 400 by less than 2^-43, its corner is at most 2^-44
    to the left of or above the canvas, and the opposite corner at most 2^-43
    beyond it; one of the sides is within 2^-43 of 400; and an image smaller
    than the canvas in both directions is enlarged. *)
Theorem drawn_rectangle_inside_canvas (w h : Z) :
  (0 < w < 2 ^ 53)%Z → (0 < h < 2 ^ 53)%Z →
  let c := onload w h in
  let x := (drawImage c).1.1.1 in
  let y := (drawImage c).1.1.2 in
  let dw := (drawImage c).1.2 in
  let dh := (drawImage c).2 in
  (0 < dw <= 400 + fit_slack ∧ 0 < dh <= 400 + fit_slack)
  ∧ (- fit_slack <= 2 * x ∧ - fit_slack <= 2 * y)
  ∧ (x + dw <= 400 + fit_slack ∧ y + dh <= 400 + fit_slack)
  ∧ (400 - fit_slack <= dw ∨ 400 - fit_slack <= dh)
  ∧ ((w < 400)%Z → (h < 400)%Z → 1 < scale w h).
Proof.
  intros [Hw _] [Hh _] c x y dw dh.
  set (m := Qmin (400 / inject_Z w) (400 / inject_Z h)).
  set (s := scale w h).
  destruct (scale_bounds w h Hw Hh) as [Hm Hs]. fold m s in Hm, Hs.
  destruct (side_bounds w m s Hw Hm Hs) as (HPw & Hdw & HWw).
  destruct (side_bounds h m s Hh Hm Hs) as (HPh & Hdh & HWh).
  change (binary64 (inject_Z w * s)) with dw in Hdw.
  change (binary64 (inject_Z h * s)) with dh in Hdh.
  destruct (exact_fit w h Hw Hh) as (HW & HH & Hfill). fold m in HW, HH, Hfill.
  destruct (offset_sandwich dw) as [Hxp Hxn].
  destruct (offset_sandwich dh) as [Hyp Hyn].
  change (binary64 (binary64 (400 - dw) / 2)) with x in Hxp, Hxn.
  change (binary64 (binary64 (400 - dh) / 2)) with y in Hyp, Hyn.
  assert (Hdw' : 0 < dw ∧ (1 - 2 * unit_roundoff) * (inject_Z w * m) <= dw
                 ∧ dw <= 400 + 801 * unit_roundoff).
  { clearbody dw. revert HPw Hdw HWw HW.
    generalize (inject_Z w * s) (inject_Z w * m). intros P W HP Hd HW1 HW2.
    unfold unit_roundoff, fit_slack in *. lra. }
  assert (Hdh' : 0 < dh ∧ (1 - 2 * unit_roundoff) * (inject_Z h * m) <= dh
                 ∧ dh <= 400 + 801 * unit_roundoff).
  { clearbody dh. revert HPh Hdh HWh HH.
    generalize (inject_Z h * s) (inject_Z h * m). intros P W HP Hd HW1 HW2.
    unfold unit_roundoff, fit_slack in *. lra. }
  clearbody x y dw dh. clear Hdw Hdh HPw HPh HWw HWh.
  split; [unfold unit_roundoff, fit_slack in *; lra|]. split.
  { split.
    - destruct (Qlt_le_dec (400 - dw) 0) as [HD|HD];
        [specialize (Hxn ltac:(lra))|specialize (Hxp HD)];
        unfold unit_roundoff, fit_slack in *; lra.
    - destruct (Qlt_le_dec (400 - dh) 0) as [HD|HD];
        [specialize (Hyn ltac:(lra))|specialize (Hyp HD)];
        unfold unit_roundoff, fit_slack in *; lra. }
  split.
  { split.
    - destruct (Qlt_le_dec (400 - dw) 0) as [HD|HD];
        [specialize (Hxn ltac:(lra))|specialize (Hxp HD)];
        unfold unit_roundoff, fit_slack in *; lra.
    - destruct (Qlt_le_dec (400 - dh) 0) as [HD|HD];
        [specialize (Hyn ltac:(lra))|specialize (Hyp HD)];
        unfold unit_roundoff, fit_slack in *; lra. }
  split.
  { destruct Hfill as [E|E]; [left|right]; rewrite E in *;
      unfold unit_roundoff, fit_slack in *; lra. }
  intros Hw4 Hh4.
  assert (Ha : (400 # 399) <= 400 / inject_Z w).
  { assert (Hle : inject_Z w <= 399) by (unfold Qle; simpl; lia).
    apply inject_Z_pos in Hw. apply Qle_shift_div_l; [done|].
    generalize dependent (inject_Z w). intros wq Hwq Hle. lra. }
  assert (Hb : (400 # 399) <= 400 / inject_Z h).
  { assert (Hle : inject_Z h <= 399) by (unfold Qle; simpl; lia).
    apply inject_Z_pos in Hh. apply Qle_shift_div_l; [done|].
    generalize dependent (inject_Z h). intros hq Hhq Hle. lra. }
  assert (Hm' : (400 # 399) <= m) by (unfold m; apply Q.min_glb; done).
  fold s. clearbody s m. unfold unit_roundoff in *. lra.
Qed.

End Composition2D.

Lemma drawn_rectangle_inside_canvas_witness :
  (0 < 1060 < 2 ^ 53)%Z ∧ (0 < 800 < 2 ^ 53)%Z
  ∧ ((ThumbnailGenerator.drawImage (ThumbnailGenerator.onload 1060 800)).1.2
     <= 400 + fit_slack
     ∧ - fit_slack
       <= 2 * (ThumbnailGenerator.drawImage (ThumbnailGenerator.onload 1060 800)).1.1.1)%Q.
Proof.
  assert (Hw : (0 < 1060 < 2 ^ 53)%Z) by (split; reflexivity).
  assert (Hh : (0 < 800 < 2 ^ 53)%Z) by (split; reflexivity).
  split; [exact Hw|]. split; [exact Hh|].
  destruct (drawn_rectangle_inside_canvas 1060 800 Hw Hh)
    as ((Hdw & _) & (Hx & _) & _).
  split; [exact (proj2 Hdw)|exact Hx].
Defined.

(** ** Further properties of the grid *)

Section Grid.

Import ToolGrid.

Implicit Types (s : State) (m : Model).

Lemma take_one_elem_of {A} `{EqDecision A} (x : A) (l : list A) :
  x ∈ l → ∃ rest, take_one x l = Some rest.
Proof.
  induction l as [|y l IH]; [by intros ?%elem_of_nil|].
  intros Hin. simpl. destruct (decide (x = y)); [by eexists|].
  apply elem_of_cons in Hin as [?|Hin]; [done|].
  destruct (IH Hin) as [rest ->]. by eexists.
Qed.

Lemma fetch_effect_initial (ms : list Model) (gens : gmap string bool)
  (pf : list string) (pi : list (string * string)) (w : World) :
  fetch_effect {| models := ms; thumbnails := ∅; loadingUrls := ∅; generators := gens;
                  pending_fetches := pf; pending_images := pi; storage := w |}
  = id <$> ms.
Proof.
  unfold fetch_effect. simpl. induction ms as [|m ms IH]; [done|].
  rewrite omap_cons, !lookup_empty. simpl. by rewrite IH.
Qed.

(** On mount the grid requests the content URL of every model it shows,
    whether or not the cache holds its thumbnail: the fetch effect of the
    first render runs with an empty [thumbnails] state, before the thumbnails
    read from the cache are in the state. *)
Theorem mount_fetches_url_of_every_model (ms : list Model) (w : World) (now : Z) :
  ∃ later, pending_fetches (mount ms w now) = (id <$> ms) ++ later.
Proof.
  unfold mount. destruct (map_to_list (load_cached ms now w).1).
  - exists []. unfold render. simpl. by rewrite fetch_effect_initial, app_nil_r.
  - eexists. unfold render at 1. cbn [pending_fetches].
    unfold render at 1. cbn [pending_fetches]. by rewrite fetch_effect_initial.
Qed.

Lemma render_generators_None s (k : string) :
  (∀ m, m ∈ models s → id m = k → shows_generator s m = false) →
  render_generators s !! k = None.
Proof.
  unfold render_generators. induction (models s) as [|m ms IH]; intros Hall; [done|].
  simpl.
  destruct (shows_generator s m) eqn:Hshow.
  - destruct (decide (id m = k)) as [Heq|Hne].
    + rewrite (Hall m (list_elem_of_here _ _) Heq) in Hshow. done.
    + rewrite lookup_insert_ne by done. apply IH.
      intros m' Hin. apply Hall. by apply list_elem_of_further.
  - apply IH. intros m' Hin. apply Hall. by apply list_elem_of_further.
Qed.

Lemma render_in_flight s (k : string) :
  (∀ m, m ∈ models s → id m = k → shows_generator s m = false) →
  in_flight k (render s) = in_flight k s.
Proof.
  intros Hall. unfold in_flight, render. cbn [pending_images].
  rewrite filter_app. rewrite (filter_none _ (flat_map _ _)); [by rewrite app_nil_r|].
  apply Forall_forall. intros p Hp Hk.
  apply list_elem_of_In, in_flat_map in Hp as (m & Hm & Hp).
  apply list_elem_of_In in Hm, Hp.
  destruct (decide (id m = k)) as [Heq|Hne].
  - rewrite <- Heq in Hall. rewrite Heq in Hp.
    rewrite (render_generators_None s k) in Hp; [by apply elem_of_nil in Hp|].
    intros m' Hm' Hid. apply Hall; [done|]. by rewrite Heq.
  - destruct (render_generators s !! id m); [|by apply elem_of_nil in Hp].
    unfold generator_effect in Hp.
    destruct (type m); [by apply elem_of_nil in Hp|].
    destruct (loadingUrls s !! id m); [|by apply elem_of_nil in Hp].
    destruct (_ && _); [|by apply elem_of_nil in Hp].
    apply list_elem_of_singleton in Hp. subst p. done.
Qed.

(** A model whose thumbnail is in the state (from the cache or from a finished
    generation) never gets a generator: when its content URL arrives, no image
    is started for it and its thumbnail stays. *)
Theorem thumbnail_present_starts_no_generation s (modelId url : string) :
  truthy (thumbnails s !! modelId) = true →
  modelId ∈ pending_fetches s →
  ∃ s', step (FetchResolved modelId url) s = Some s'
        ∧ in_flight modelId s' = in_flight modelId s
        ∧ thumbnails s' = thumbnails s.
Proof.
  intros Hthumb Hpending. simpl.
  destruct (take_one_elem_of modelId (pending_fetches s) Hpending) as [rest ->]. simpl.
  destruct (truthy (loadingUrls s !! modelId)); [by eexists|].
  eexists. split; [done|]. split; [|done].
  rewrite render_in_flight; [done|].
  intros m _ Hid. unfold shows_generator. simpl. rewrite Hid, Hthumb.
  by rewrite andb_false_r.
Qed.

Lemma set_ends_with_setItem_at (modelId dataUrl : string) (now : Z) (w : World) :
  ∃ w' : World,
    (ThumbnailCache.set modelId dataUrl now now w).1
    = (localStorage.setItem (CACHE_PREFIX +:+ modelId)
         (JSON.stringify
            {| dataUrl := dataUrl; timestamp := now; size := str_length dataUrl |}) w').1.
Proof.
  destruct (set_ends_with_setItem modelId dataUrl now now w) as (w' & t & Hw').
  remember (ThumbnailCache.set modelId dataUrl now now w) as r eqn:Hr.
  clear t Hw'. unfold ThumbnailCache.set, try_catch at 1, bind at 1 in Hr.
  assert (Hretry : ∀ w1,
    r = (cleanup 10 ;;
         try_catch
           (localStorage.setItem (CACHE_PREFIX +:+ modelId)
              (JSON.stringify
                 {| dataUrl := dataUrl; timestamp := now; size := str_length dataUrl |}))
           (fun _ => ret tt)) w1 →
    ∃ w' : World,
      r.1 = (localStorage.setItem (CACHE_PREFIX +:+ modelId)
               (JSON.stringify
                  {| dataUrl := dataUrl; timestamp := now;
                     size := str_length dataUrl |}) w').1).
  { intros w1 ->. unfold bind. pose proof (cleanup_normal 10 w1) as Hc.
    destruct (cleanup 10 w1) as [w2 c]. simpl in Hc. subst c.
    exists w2. unfold try_catch, ret.
    by destruct (localStorage.setItem _ _ w2) as [w3 [[]|e]]. }
  destruct (cleanupIfNeeded w) as [w1 [[]|e]]; [|by apply (Hretry w1)].
  destruct (localStorage.setItem _ _ w1) as [w2 [[]|e]] eqn:Hset;
    [|by apply (Hretry w2)].
  exists w1. by rewrite Hr, Hset.
Qed.

(** What the [onload] of an image under way does to the grid. *)
Lemma step_ImageLoaded s (modelId url dataUrl : string) (now : Z) :
  (modelId, url) ∈ pending_images s →
  ∃ s' rest,
    step (ImageLoaded modelId url dataUrl now) s = Some s'
    ∧ take_one (modelId, url) (pending_images s) = Some rest
    ∧ thumbnails s' !! modelId = Some dataUrl
    ∧ loadingUrls s' !! modelId = None
    ∧ in_flight modelId s' = filter (fun p => p.1 = modelId) rest
    ∧ ∃ accepted : bool,
        last (setItem_log (storage s'))
        = Some (CACHE_PREFIX +:+ modelId,
                JSON.stringify
                  {| dataUrl := dataUrl; timestamp := now; size := str_length dataUrl |},
                accepted)
        ∧ (accepted = true →
           ThumbnailCache.get modelId now (storage s') = (storage s', Normal (JsString dataUrl))).
Proof.
  intros Hpending.
  destruct (take_one_elem_of _ _ Hpending) as [rest Hrest].
  simpl. rewrite Hrest. simpl. eexists _, rest. split; [done|]. split; [done|].
  split; [unfold render; cbn [thumbnails]; by rewrite lookup_insert_eq|].
  split; [unfold render; cbn [loadingUrls]; by rewrite lookup_delete_eq|].
  split.
  { rewrite render_in_flight; [done|].
    intros m _ Hid. unfold shows_generator. simpl.
    by rewrite Hid, lookup_delete_eq. }
  destruct (set_ends_with_setItem_at modelId dataUrl now (storage s)) as [w' Hw'].
  destruct (setItem_stored (CACHE_PREFIX +:+ modelId)
              (JSON.stringify
                 {| dataUrl := dataUrl; timestamp := now; size := str_length dataUrl |}) w')
    as (b & Hlast & Hlook).
  rewrite <- Hw' in Hlast, Hlook.
  exists b. unfold render. cbn [storage]. split; [exact Hlast|]. intros Hb.
  rewrite (get_entry modelId now _ _ (Hlook Hb)). simpl.
  by replace (now - now) with 0 by lia.
Qed.

(** When an image finishes loading, its data URL becomes the thumbnail of the
    model, the loading URL of the model is dropped, the render that follows
    starts no further image for the model, and the cache is written: the last
    [setItem] call is for the key of the model, and when the storage takes it
    a read of the cache returns the same data URL. *)
Theorem image_loaded_writes_through s (modelId url dataUrl : string) (now : Z) :
  (modelId, url) ∈ pending_images s →
  ∃ s' rest,
    step (ImageLoaded modelId url dataUrl now) s = Some s'
    ∧ take_one (modelId, url) (pending_images s) = Some rest
    ∧ thumbnails s' !! modelId = Some dataUrl
    ∧ loadingUrls s' !! modelId = None
    ∧ in_flight modelId s' = filter (fun p => p.1 = modelId) rest
    ∧ ∃ accepted : bool,
        last (setItem_log (storage s'))
        = Some (CACHE_PREFIX +:+ modelId,
                JSON.stringify
                  {| dataUrl := dataUrl; timestamp := now; size := str_length dataUrl |},
                accepted)
        ∧ (accepted = true →
           ThumbnailCache.get modelId now (storage s') = (storage s', Normal (JsString dataUrl))).
Proof. exact (step_ImageLoaded s modelId url dataUrl now). Qed.


End Grid.

Lemma thumbnail_present_starts_no_generation_witness :
  ToolGrid.truthy (ToolGrid.thumbnails grid_cached !! "a") = true
  ∧ "a" ∈ ToolGrid.pending_fetches grid_cached
  ∧ ∃ s', ToolGrid.step (ToolGrid.FetchResolved "a" "https://files/a") grid_cached = Some s'
          ∧ ToolGrid.in_flight "a" s' = ToolGrid.in_flight "a" grid_cached
          ∧ ToolGrid.thumbnails s' = ToolGrid.thumbnails grid_cached.
Proof.
  assert (H1 : ToolGrid.truthy (ToolGrid.thumbnails grid_cached !! "a") = true)
    by (vm_compute; reflexivity).
  assert (H2 : "a" ∈ ToolGrid.pending_fetches grid_cached)
    by (apply (bool_decide_unpack _); vm_compute; exact I).
  split; [exact H1|]. split; [exact H2|].
  exact (thumbnail_present_starts_no_generation grid_cached "a" "https://files/a" H1 H2).
Defined.

Lemma image_loaded_writes_through_witness :
  ("A", "https://files/A") ∈ ToolGrid.pending_images grid_loading_A
  ∧ ∃ s' rest,
      ToolGrid.step
        (ToolGrid.ImageLoaded "A" "https://files/A" "data:image/png;base64,AAAA" 10)
        grid_loading_A = Some s'
      ∧ ToolGrid.take_one ("A", "https://files/A") (ToolGrid.pending_images grid_loading_A)
        = Some rest
      ∧ ToolGrid.thumbnails s' !! "A" = Some "data:image/png;base64,AAAA"
      ∧ ToolGrid.loadingUrls s' !! "A" = None
      ∧ ToolGrid.in_flight "A" s' = filter (fun p => p.1 = "A") rest
      ∧ ∃ accepted : bool,
          last (setItem_log (ToolGrid.storage s'))
          = Some (CACHE_PREFIX +:+ "A",
                  JSON.stringify
                    {| dataUrl := "data:image/png;base64,AAAA"; timestamp := 10;
                       size := str_length "data:image/png;base64,AAAA" |},
                  accepted)
          ∧ (accepted = true →
             ThumbnailCache.get "A" 10 (ToolGrid.storage s')
             = (ToolGrid.storage s', Normal (JsString "data:image/png;base64,AAAA"))).
Proof.
  assert (H1 : ("A", "https://files/A") ∈ ToolGrid.pending_images grid_loading_A)
    by (apply (bool_decide_unpack _); vm_compute; exact I).
  split; [exact H1|].
  exact (image_loaded_writes_through grid_loading_A "A" "https://files/A"
           "data:image/png;base64,AAAA" 10 H1).
Defined.


(** ** The 2D viewer *)

Section Viewer2D.

Import ModelViewer2D.

Lemma handle_zoom_range (ev : Event) (s : State) :
  25 <= zoom s <= 300 → 25 <= zoom (handle ev s) <= 300.
Proof.
  intros Hz. destruct ev; simpl;
    try destruct (button =? 0)%Z; try destruct (isDragging s);
    try destruct (Qlt_le_dec 0 deltaY); simpl; lia.
Qed.

Lemma handle_zoom_step (ev : Event) (s : State) :
  (zoom s mod 5 = 0) → zoom (handle ev s) mod 5 = 0.
Proof.
  intros Hz. destruct ev; simpl; try done.
  - destruct (Z.min_spec (zoom s + 25) 300) as [[_ ->]|[_ ->]]; [|done].
    by replace (zoom s + 25) with (zoom s + 5 * 5) by lia; rewrite Z_mod_plus_full.
  - destruct (Z.max_spec (zoom s - 25) 25) as [[_ ->]|[_ ->]]; [done|].
    by replace (zoom s - 25) with (zoom s + (-5) * 5) by lia; rewrite Z_mod_plus_full.
  - destruct (button =? 0)%Z; simpl; done.
  - destruct (isDragging s); simpl; done.
  - destruct (Qlt_le_dec 0 deltaY).
    + destruct (Z.max_spec 25 (Z.min 300 (zoom s + -10))) as [[_ ->]|[_ ->]]; [|done].
      destruct (Z.min_spec 300 (zoom s + -10)) as [[_ ->]|[_ ->]]; [done|].
      by replace (zoom s + -10) with (zoom s + (-2) * 5) by lia; rewrite Z_mod_plus_full.
    + destruct (Z.max_spec 25 (Z.min 300 (zoom s + 10))) as [[_ ->]|[_ ->]]; [|done].
      destruct (Z.min_spec 300 (zoom s + 10)) as [[_ ->]|[_ ->]]; [done|].
      by replace (zoom s + 10) with (zoom s + 2 * 5) by lia; rewrite Z_mod_plus_full.
Qed.

(** Whatever the user does in the 2D viewer (buttons, wheel, dragging, reset,
    in any order), the zoom stays between 25 and 300 percent and is a multiple
    of 5. *)
Theorem zoom_stays_between_25_and_300 (evs : list Event) :
  25 <= zoom (run evs initial) <= 300 ∧ zoom (run evs initial) mod 5 = 0.
Proof.
  unfold run.
  assert (Hinit : 25 <= zoom initial <= 300 ∧ zoom initial mod 5 = 0) by (simpl; done).
  revert Hinit. generalize initial as s.
  induction evs as [|ev evs IH]; intros s [Hr Hm]; [done|]. simpl.
  apply IH. split; [by apply handle_zoom_range|by apply handle_zoom_step].
Qed.

Lemma moves_while_dragging (path : list Point) (s : State) :
  isDragging s = true →
  let s' := run (moves path) s in
  isDragging s' = true
  ∧ dragStart s' = dragStart s
  ∧ zoom s' = zoom s
  ∧ position s'
    = match last path with
      | Some p => mkPoint (px p - px (dragStart s)) (py p - py (dragStart s))
      | None => position s
      end.
Proof.
  unfold run, moves. revert s.
  induction path as [|p path IH]; intros s Hdrag; [done|].
  cbn [fmap list_fmap foldl handle]. rewrite Hdrag.
  set (s1 := {| zoom := zoom s |}).
  destruct (IH s1 eq_refl) as (Hd & Hs & Hz & Hp).
  split; [done|]. split; [done|]. split; [done|].
  change (foldl _ s1 _) with (foldl (λ s ev, handle ev s) s1 (moves path)) in *.
  unfold moves in *. rewrite Hp, last_cons.
  by destruct (last path).
Qed.

(** Dragging with the left button moves the image by exactly the travel of
    the pointer: after the button goes down at [(x0, y0)] and the pointer moves
    along any path, the image has moved from where it was by the difference
    between the last pointer position and [(x0, y0)]; the zoom is unchanged.
    Once the button is released, further pointer moves leave the image where
    it is. *)
Theorem drag_moves_image_by_pointer_travel
  (s : State) (x0 y0 : Z) (path after : list Point) :
  let dropped := run (MouseDown 0 x0 y0 :: moves path ++ [MouseUp]) s in
  let final := default (mkPoint x0 y0) (last path) in
  position dropped
  = mkPoint (px (position s) + (px final - x0)) (py (position s) + (py final - y0))
  ∧ zoom dropped = zoom s
  ∧ isDragging dropped = false
  ∧ position (run (moves after) dropped) = position dropped.
Proof.
  intros dropped final.
  set (s1 := handle (MouseDown 0 x0 y0) s).
  destruct (moves_while_dragging path s1 eq_refl) as (Hd & Hs & Hz & Hp).
  assert (Hdropped : dropped = handle MouseUp (run (moves path) s1)).
  { unfold dropped, run. cbn [foldl]. by rewrite foldl_app. }
  assert (Hidle : ∀ t, isDragging t = false → run (moves after) t = t).
  { unfold run, moves. induction after as [|p after IH]; intros t Ht; [done|].
    cbn [fmap list_fmap foldl handle]. rewrite Ht. by apply IH. }
  split_and!.
  - rewrite Hdropped. cbn [handle position]. rewrite Hp. unfold final.
    destruct (last path) as [p|]; simpl; [f_equal; lia|].
    destruct (position s) as [a b]. simpl. f_equal; lia.
  - rewrite Hdropped. cbn [handle zoom]. by rewrite Hz.
  - by rewrite Hdropped.
  - rewrite Hidle; [done|]. by rewrite Hdropped.
Qed.

End Viewer2D.
